(** * The likelihood-tree kernels of [cogent3.evolve._likelihood_tree_numba]

    A shallow embedding of the three numeric kernels

    - [sum_input_likelihoods]          (the node combiner),
    - [get_total_log_likelihood_step1] (the root aggregator),
    - [get_log_sum_across_sites]       (the log aggregator),

    followed by the properties the specification states about them.

    Modelling choices.

    - A [float64] value is an extended real: a finite real, [+inf], [-inf]
      or [nan]; the two zeros are one value.
    - The arithmetic comes in two forms.  Module [Machine] holds the kernels
      with the multiplication, the addition and the logarithm left open: a
      property proved there for all operations holds in particular for the
      operations of binary64, which round, overflow and underflow.  The
      kernels outside [Machine] are the same code with exact operations
      ([fmul], [fadd], [flog]: exact on finite values, the IEEE rules on the
      special ones); what is proved of them alone is a statement over
      real-number arithmetic.
    - A one-dimensional array is a list; a two-dimensional array is its row
      width together with the list of its rows.
    - An index [i] on an axis of length [n] is inside the array when
      [-n <= i < n], negative ones counting from the end.  An access outside
      the array ends the run ([IndexError], [Raised]); this is what
      interpreted Python does.  The compiled kernels do not check bounds,
      and what they do on such an access is outside the model: the
      properties below are about runs whose accesses stay inside the arrays.
    - The result buffer is mutated in place, so a run carries the buffer
      along.  The buffer is assumed to be a different array from the
      children's matrices. *)

From Stdlib Require Import Reals Lra Lia ZArith Permutation.
From stdpp Require Import base list.

(** ** Floating-point values *)

Inductive float64 : Type :=
  | Fin (x : R)
  | PInf
  | NInf
  | NaN.

(** Product of an infinity with a finite value: the sign of [x] decides,
    and [inf * 0] is [nan].  [pos] tells whether the infinity is [+inf]. *)
Definition inf_times (pos : bool) (x : R) : float64 :=
  match total_order_T 0 x with
  | inleft (left _) => if pos then PInf else NInf
  | inleft (right _) => NaN
  | inright _ => if pos then NInf else PInf
  end.

Definition fmul (a b : float64) : float64 :=
  match a, b with
  | NaN, _ | _, NaN => NaN
  | Fin x, Fin y => Fin (x * y)
  | PInf, Fin y => inf_times true y
  | NInf, Fin y => inf_times false y
  | Fin x, PInf => inf_times true x
  | Fin x, NInf => inf_times false x
  | PInf, PInf | NInf, NInf => PInf
  | PInf, NInf | NInf, PInf => NInf
  end.

Definition fadd (a b : float64) : float64 :=
  match a, b with
  | NaN, _ | _, NaN => NaN
  | Fin x, Fin y => Fin (x + y)
  | PInf, NInf | NInf, PInf => NaN
  | PInf, _ | _, PInf => PInf
  | NInf, _ | _, NInf => NInf
  end.

(** [numpy.log] on one value: the natural logarithm, with [log 0 = -inf]
    and [nan] below zero. *)
Definition flog (a : float64) : float64 :=
  match a with
  | Fin x =>
      match total_order_T 0 x with
      | inleft (left _) => Fin (ln x)
      | inleft (right _) => NInf
      | inright _ => NaN
      end
  | PInf => PInf
  | NInf => NaN
  | NaN => NaN
  end.

(** ** Outcomes and arrays *)

(** The value of an expression that may raise [IndexError]. *)
Inductive outcome (A : Type) : Type :=
  | Ok (a : A)
  | IndexError.
Arguments Ok {A} a.
Arguments IndexError {A}.

(** Position on an axis of length [n] that the index [i] denotes. *)
Definition axis_index (n : nat) (i : Z) : option nat :=
  if ((0 <=? i) && (i <? Z.of_nat n))%Z then Some (Z.to_nat i)
  else if ((- Z.of_nat n <=? i) && (i <? 0))%Z then Some (Z.to_nat (i + Z.of_nat n))
  else None.

(** [a[i]] on a one-dimensional array. *)
Definition getitem {A : Type} (a : list A) (i : Z) : outcome A :=
  match axis_index (length a) i with
  | Some k => match a !! k with Some x => Ok x | None => IndexError end
  | None => IndexError
  end.

(** A two-dimensional [float64] array of shape [(shape0, shape1)]. *)
Record ndarray2 : Type := Arr2 {
  shape1 : nat;
  rows : list (list float64)
}.

Definition shape0 (M : ndarray2) : nat := length (rows M).

(** Every row has the declared width. *)
Definition wf (M : ndarray2) : Prop :=
  Forall (fun r => length r = shape1 M) (rows M).

(** The cell at a position already known to be inside the array. *)
Definition cell (M : ndarray2) (p m : nat) : option float64 :=
  match rows M !! p with
  | Some r => r !! m
  | None => None
  end.

(** [M[i, j]]. *)
Definition getitem2 (M : ndarray2) (i j : Z) : outcome float64 :=
  match axis_index (shape0 M) i, axis_index (shape1 M) j with
  | Some p, Some m =>
      match cell M p m with Some x => Ok x | None => IndexError end
  | _, _ => IndexError
  end.

(** A run of code that mutates the result buffer: it either completes,
    or raises [IndexError]; both carry the buffer as it then is. *)
Inductive run : Type :=
  | Done (buf : ndarray2)
  | Raised (buf : ndarray2).

Definition and_then (r : run) (k : ndarray2 -> run) : run :=
  match r with
  | Done b => k b
  | Raised b => Raised b
  end.

(** [M[i, j] = v]. *)
Definition setitem2 (M : ndarray2) (i j : Z) (v : float64) : run :=
  match axis_index (shape0 M) i, axis_index (shape1 M) j with
  | Some p, Some m =>
      match rows M !! p with
      | Some r =>
          if decide (m < length r)
          then Done (Arr2 (shape1 M) (<[p := <[m := v]> r]> (rows M)))
          else Raised M
      | None => Raised M
      end
  | _, _ => Raised M
  end.

(** [for i in l: body(i)] over the buffer. *)
Fixpoint for_each (l : list nat) (body : nat -> ndarray2 -> run)
    (buf : ndarray2) : run :=
  match l with
  | [] => Done buf
  | i :: l' => and_then (body i buf) (for_each l' body)
  end.

(** [for i in range(n): body(i)]. *)
Definition for_range (n : nat) (body : nat -> ndarray2 -> run)
    (buf : ndarray2) : run :=
  for_each (seq 0 n) body buf.

(** ** The node combiner *)

(** Line 18: [result[parent_col, motif] = plhs[child_col, motif]]. *)
Definition assign_cell (plhs : ndarray2) (child_col : Z) (parent_col motif : nat)
    (result : ndarray2) : run :=
  match getitem2 plhs child_col (Z.of_nat motif) with
  | Ok x => setitem2 result (Z.of_nat parent_col) (Z.of_nat motif) x
  | IndexError => Raised result
  end.

(** Line 23: [result[parent_col, motif] *= plhs[child_col, motif]]. *)
Definition multiply_cell (plhs : ndarray2) (child_col : Z) (parent_col motif : nat)
    (result : ndarray2) : run :=
  match getitem2 result (Z.of_nat parent_col) (Z.of_nat motif) with
  | Ok old =>
      match getitem2 plhs child_col (Z.of_nat motif) with
      | Ok x => setitem2 result (Z.of_nat parent_col) (Z.of_nat motif) (fmul old x)
      | IndexError => Raised result
      end
  | IndexError => Raised result
  end.

(** Lines 15-18 and 20-23: the two loops over the parent's patterns, which
    differ only in the statement applied to each cell. *)
Definition child_pass
    (store : ndarray2 -> Z -> nat -> nat -> ndarray2 -> run)
    (index : list Z) (plhs : ndarray2) (index_height result_width : nat)
    (result : ndarray2) : run :=
  for_range index_height (fun parent_col result =>
    match getitem index (Z.of_nat parent_col) with
    | Ok child_col =>
        for_range result_width (store plhs child_col parent_col) result
    | IndexError => Raised result
    end) result.

(** Lines 10-23: the body of the loop over the children. *)
Definition child_step (child_indexes : list (list Z)) (likelihoods : list ndarray2)
    (child : nat) (result : ndarray2) : run :=
  match getitem child_indexes (Z.of_nat child) with
  | Ok index =>
      match getitem likelihoods (Z.of_nat child) with
      | Ok plhs =>
          let index_height := length index in
          let result_width := shape1 result in
          if decide (child = 0)
          then child_pass assign_cell index plhs index_height result_width result
          else child_pass multiply_cell index plhs index_height result_width result
      | IndexError => Raised result
      end
  | IndexError => Raised result
  end.

(** [sum_input_likelihoods(child_indexes, result, likelihoods)]:
    [Done b] when the call returns the buffer, then holding [b]. *)
Definition sum_input_likelihoods (child_indexes : list (list Z))
    (result : ndarray2) (likelihoods : list ndarray2) : run :=
  let C := length child_indexes in
  for_range C (child_step child_indexes likelihoods) result.

(** ** The root aggregator and the log aggregator *)

(** [res = 0.0; for i in l: res += term(i)], where [term] may raise. *)
Fixpoint accumulate (l : list nat) (term : nat -> outcome float64)
    (res : float64) : outcome float64 :=
  match l with
  | [] => Ok res
  | i :: l' =>
      match term i with
      | Ok t => accumulate l' term (fadd res t)
      | IndexError => IndexError
      end
  end.

(** [a[i] * b[i]]. *)
Definition product_at (a b : list float64) (i : nat) : outcome float64 :=
  match getitem a (Z.of_nat i) with
  | Ok x =>
      match getitem b (Z.of_nat i) with
      | Ok y => Ok (fmul x y)
      | IndexError => IndexError
      end
  | IndexError => IndexError
  end.

(** [get_total_log_likelihood_step1(input_likelihoods, mprobs)]. *)
Definition get_total_log_likelihood_step1 (input_likelihoods mprobs : list float64)
    : outcome float64 :=
  accumulate (seq 0 (length mprobs)) (product_at input_likelihoods mprobs) (Fin 0).

(** [get_log_sum_across_sites(lhs, counts)]. *)
Definition get_log_sum_across_sites (lhs counts : list float64) : outcome float64 :=
  let log_lhs := map flog lhs in
  accumulate (seq 0 (length counts)) (product_at log_lhs counts) (Fin 0).

(** ** Specification-level sums and products *)

(** Product of a list of values. *)
Definition fprod (l : list float64) : float64 := foldr fmul (Fin 1) l.

(** Sum of a list of values. *)
Definition fsum (l : list float64) : float64 := foldr fadd (Fin 0) l.

(** Dot product of two vectors, pairing entries position by position. *)
Definition dot (a b : list float64) : float64 := fsum (zip_with fmul a b).

(** The real number [sum_i ln(x_i) * c_i]. *)
Fixpoint log_sum (xs cs : list R) : R :=
  match xs, cs with
  | x :: xs', c :: cs' => (ln x * c + log_sum xs' cs')%R
  | _, _ => 0%R
  end.

(** ** Notions used to state the properties *)

(** [plhs[index[p], m]], the value a child contributes to cell [(p, m)]. *)
Definition child_value (index : list Z) (plhs : ndarray2) (p m : nat) : outcome float64 :=
  match getitem index (Z.of_nat p) with
  | Ok child_col => getitem2 plhs child_col (Z.of_nat m)
  | IndexError => IndexError
  end.

(** A statement on cell [(p, m)] that replaces its content [old] by
    [f old x], where [x] is [plhs[child_col, m]], raising when either
    access is out of range. *)
Definition cell_statement (f : float64 → float64 → float64)
    (store : ndarray2 → Z → nat → nat → ndarray2 → run) : Prop :=
  (∀ M cc p m b b', wf b → store M cc p m b = Done b' →
     p < shape0 b ∧ m < shape1 b ∧
     shape0 b' = shape0 b ∧ shape1 b' = shape1 b ∧ wf b' ∧
     (∃ x old, getitem2 M cc (Z.of_nat m) = Ok x ∧ cell b p m = Some old ∧
               cell b' p m = Some (f old x)) ∧
     (∀ p' m', ¬ (p' = p ∧ m' = m) → cell b' p' m' = cell b p' m')) ∧
  (∀ M cc p m b x, wf b → p < shape0 b → m < shape1 b →
     getitem2 M cc (Z.of_nat m) = Ok x → ∃ b', store M cc p m b = Done b').

(** What the statement chosen for [child] does to the old content of a cell. *)
Definition combine (child : nat) : float64 → float64 → float64 :=
  if decide (child = 0) then (λ _ x, x) else fmul.

(** Every access made while processing [child] is inside its array. *)
Definition accesses_in_range (ci : list (list Z)) (lks : list ndarray2)
    (res : ndarray2) (child : nat) : Prop :=
  ∃ index plhs, ci !! child = Some index ∧ lks !! child = Some plhs ∧
    ∀ p m, p < length index → m < shape1 res →
      p < shape0 res ∧ ∃ x, child_value index plhs p m = Ok x.

(** A child whose index map and likelihood matrix fit the result buffer:
    the map has one entry per row of the buffer, every entry is a row of the
    child's matrix, and the matrix has the buffer's width. *)
Definition valid_child (res : ndarray2) (index : list Z) (plhs : ndarray2) : Prop :=
  length index = shape0 res ∧ wf plhs ∧ shape1 plhs = shape1 res ∧
  Forall (λ v, (0 ≤ v < Z.of_nat (shape0 plhs))%Z) index.

(** Consistent arguments: as many matrices as maps, each pair fitting. *)
Definition consistent (ci : list (list Z)) (res : ndarray2)
    (lks : list ndarray2) : Prop :=
  wf res ∧ Forall2 (valid_child res) ci lks.

(** The values the children contribute to cell [(p, m)], child by child. *)
Definition child_values (ci : list (list Z)) (lks : list ndarray2) (p m : nat)
    (vals : list float64) : Prop :=
  Forall2 (λ child v, child_value child.1 child.2 p m = Ok v) (zip ci lks) vals.

(** A looser fit, which is all the loops need in order not to raise: the
    map is no longer than the buffer has rows, its entries are accepted as
    row indices of the child's matrix, and the matrix is at least as wide
    as the buffer. *)
Definition covers (res : ndarray2) (index : list Z) (plhs : ndarray2) : Prop :=
  length index ≤ shape0 res ∧ wf plhs ∧ shape1 res ≤ shape1 plhs ∧
  Forall (λ v, (- Z.of_nat (shape0 plhs) ≤ v < Z.of_nat (shape0 plhs))%Z) index.

(** Example data over two motifs: the matrix of child [A] has a single
    row, that of child [B] has two; two buffers of two rows, one filled
    with [nan] and one with ones. *)
Definition plhs_A : ndarray2 := Arr2 2 [[Fin 1; Fin 0]].
Definition plhs_B : ndarray2 := Arr2 2 [[Fin 0; Fin 1]; [Fin 1; Fin 0]].
Definition stale_buffer : ndarray2 := Arr2 2 [[NaN; NaN]; [NaN; NaN]].
Definition ones_buffer : ndarray2 := Arr2 2 [[Fin 1; Fin 1]; [Fin 1; Fin 1]].

(** Value a child contributes to a cell, as a total function. *)
Definition child_value_or_nan (p m : nat) (child : list Z * ndarray2) : float64 :=
  match child_value child.1 child.2 p m with
  | Ok v => v
  | IndexError => NaN
  end.

(** The three ways in which the dimensions of a call can disagree: the
    number of maps against the number of matrices, the length of a map
    against the rows of the buffer, the width of a matrix against the width
    of the buffer. *)
Definition shape_mismatch (ci : list (list Z)) (res : ndarray2)
    (lks : list ndarray2) : Prop :=
  length ci ≠ length lks ∨
  (∃ index, index ∈ ci ∧ length index ≠ shape0 res) ∨
  (∃ plhs, plhs ∈ lks ∧ shape1 plhs ≠ shape1 res).

(** A buffer of two rows and width one: narrower than the example
    matrices, and longer than a map of one entry. *)
Definition narrow_buffer : ndarray2 := Arr2 1 [[NaN]; [NaN]].

(** The weighted log of one pattern whose total and count are finite. *)
Definition log_term (x c : R) : float64 := fmul (flog (Fin x)) (Fin c).

(** The map that sends every pattern of the parent to the same row of
    the child. *)
Definition identity_map (P : nat) : list Z := Z.of_nat <$> seq 0 P.

(** A finite value, and a finite value between zero and one. *)
Definition is_finite (v : float64) : Prop := ∃ x, v = Fin x.

Definition is_probability (v : float64) : Prop :=
  ∃ x, v = Fin x ∧ (0 <= x <= 1)%R.

(** Arrays whose entries all satisfy a property. *)
Definition all_cells (P : float64 → Prop) (M : ndarray2) : Prop :=
  Forall (Forall P) (rows M).

(** The real dot product. *)
Fixpoint rdot (a b : list R) : R :=
  match a, b with
  | x :: a', y :: b' => (x * y + rdot a' b')%R
  | _, _ => 0%R
  end.

(** The row of length [K] of an unambiguous motif [j]: one at [j], zero
    elsewhere. *)
Definition one_hot (K j : nat) : list R :=
  (λ i, if decide (i = j) then 1%R else 0%R) <$> seq 0 K.

(** ** The kernels in machine arithmetic *)

(** The same three kernels, with the operations of the arithmetic as
    parameters: [mul] is [*], [add] is [+] and [log] is [numpy.log], each on
    [float64] values.  Nothing is assumed of them here. *)
Module Machine.
Section Arithmetic.
Variable mul add : float64 → float64 → float64.
Variable log : float64 → float64.

(** Line 23: [result[parent_col, motif] *= plhs[child_col, motif]]. *)
Definition multiply_cell (plhs : ndarray2) (child_col : Z) (parent_col motif : nat)
    (result : ndarray2) : run :=
  match getitem2 result (Z.of_nat parent_col) (Z.of_nat motif) with
  | Ok old =>
      match getitem2 plhs child_col (Z.of_nat motif) with
      | Ok x => setitem2 result (Z.of_nat parent_col) (Z.of_nat motif) (mul old x)
      | IndexError => Raised result
      end
  | IndexError => Raised result
  end.

(** Lines 10-23: the body of the loop over the children. *)
Definition child_step (child_indexes : list (list Z)) (likelihoods : list ndarray2)
    (child : nat) (result : ndarray2) : run :=
  match getitem child_indexes (Z.of_nat child) with
  | Ok index =>
      match getitem likelihoods (Z.of_nat child) with
      | Ok plhs =>
          let index_height := length index in
          let result_width := shape1 result in
          if decide (child = 0)
          then child_pass assign_cell index plhs index_height result_width result
          else child_pass multiply_cell index plhs index_height result_width result
      | IndexError => Raised result
      end
  | IndexError => Raised result
  end.

(** [sum_input_likelihoods(child_indexes, result, likelihoods)]. *)
Definition sum_input_likelihoods (child_indexes : list (list Z))
    (result : ndarray2) (likelihoods : list ndarray2) : run :=
  let C := length child_indexes in
  for_range C (child_step child_indexes likelihoods) result.

(** [res = 0.0; for i in l: res += term(i)]. *)
Fixpoint accumulate (l : list nat) (term : nat -> outcome float64)
    (res : float64) : outcome float64 :=
  match l with
  | [] => Ok res
  | i :: l' =>
      match term i with
      | Ok t => accumulate l' term (add res t)
      | IndexError => IndexError
      end
  end.

(** [a[i] * b[i]]. *)
Definition product_at (a b : list float64) (i : nat) : outcome float64 :=
  match getitem a (Z.of_nat i) with
  | Ok x =>
      match getitem b (Z.of_nat i) with
      | Ok y => Ok (mul x y)
      | IndexError => IndexError
      end
  | IndexError => IndexError
  end.

(** [get_total_log_likelihood_step1(input_likelihoods, mprobs)]. *)
Definition get_total_log_likelihood_step1 (input_likelihoods mprobs : list float64)
    : outcome float64 :=
  accumulate (seq 0 (length mprobs)) (product_at input_likelihoods mprobs) (Fin 0).

(** [get_log_sum_across_sites(lhs, counts)]. *)
Definition get_log_sum_across_sites (lhs counts : list float64) : outcome float64 :=
  let log_lhs := map log lhs in
  accumulate (seq 0 (length counts)) (product_at log_lhs counts) (Fin 0).

(** What the statement chosen for [child] does to the old content of a cell. *)
Definition combine (child : nat) : float64 → float64 → float64 :=
  if decide (child = 0) then (λ _ x, x) else mul.

End Arithmetic.
End Machine.

(** The product [((v * v1) * v2) * ...] and the sum [((0.0 + t0) + t1) + ...],
    taken from left to right in the given arithmetic. *)
Definition product_in_order (mul : float64 → float64 → float64)
    (v : float64) (vs : list float64) : float64 :=
  foldl mul v vs.

Definition sum_in_order (add : float64 → float64 → float64)
    (ts : list float64) : float64 :=
  foldl add (Fin 0) ts.

(** What IEEE-754 fixes for the special values met in the log aggregator:
    [log 0 = -inf]; [-inf] times a positive finite value is [-inf]; a sum
    with a [nan] operand is [nan]; [-inf] plus anything but [+inf] and [nan]
    is [-inf], and [-inf] plus [+inf] is [nan]. *)
Record special_values (mul add : float64 → float64 → float64)
    (log : float64 → float64) : Prop := SpecialValues {
  sv_log_zero : log (Fin 0) = NInf;
  sv_mul_ninf : ∀ c, (0 < c)%R → mul NInf (Fin c) = NInf;
  sv_add_nan_l : ∀ b, add NaN b = NaN;
  sv_add_nan_r : ∀ a, add a NaN = NaN;
  sv_add_ninf_l : ∀ b, b ≠ PInf → b ≠ NaN → add NInf b = NInf;
  sv_add_ninf_r : ∀ a, a ≠ PInf → a ≠ NaN → add a NInf = NInf;
  sv_add_ninf_pinf : add NInf PInf = NaN;
  sv_add_pinf_ninf : add PInf NInf = NaN
}.

(** What rounding to nearest keeps of the arithmetic of probabilities: zero
    times a finite value is zero, zero plus zero is zero, and the product
    of two values between zero and one lies between zero and one. *)
Record probability_laws (mul add : float64 → float64 → float64) : Prop :=
  ProbabilityLaws {
  pl_mul_zero_l : ∀ b, is_finite b → mul (Fin 0) b = Fin 0;
  pl_mul_zero_r : ∀ a, is_finite a → mul a (Fin 0) = Fin 0;
  pl_mul_probability :
    ∀ a b, is_probability a → is_probability b → is_probability (mul a b);
  pl_add_zero : add (Fin 0) (Fin 0) = Fin 0
}.

(** An arithmetic that overflows as binary64 does and is otherwise exact: a
    finite result of magnitude [2^1024] or more becomes an infinity.
    binary64 has no finite value that large, so it overflows wherever this
    arithmetic does. *)
Definition overflow (v : float64) : float64 :=
  match v with
  | Fin x =>
      if Rle_dec (2 ^ 1024) x then PInf
      else if Rle_dec x (- 2 ^ 1024) then NInf
      else Fin x
  | _ => v
  end.

Definition mul_overflow (a b : float64) : float64 := overflow (fmul a b).
Definition add_overflow (a b : float64) : float64 := overflow (fadd a b).
Definition log_overflow (a : float64) : float64 := overflow (flog a).

(** ** Algebra of the floating-point model *)

Ltac float_cases :=
  repeat match goal with
         | |- context [total_order_T ?a ?b] =>
             destruct (total_order_T a b) as [[?|?]|?]
         end.

Ltac float_solve :=
  unfold inf_times; float_cases; simpl;
  try reflexivity; try (f_equal; lra); try (exfalso; nra).

Lemma fmul_comm a b : fmul a b = fmul b a.
Proof. destruct a, b; simpl; float_solve. Qed.

Lemma fmul_1_l a : fmul (Fin 1) a = a.
Proof. destruct a; simpl; float_solve. Qed.

Lemma fmul_1_r a : fmul a (Fin 1) = a.
Proof. rewrite fmul_comm. apply fmul_1_l. Qed.

Lemma fmul_assoc a b c : fmul a (fmul b c) = fmul (fmul a b) c.
Proof.
  destruct a, b, c; simpl; unfold inf_times; float_cases; simpl;
    unfold inf_times; float_cases; simpl;
    try reflexivity; try (f_equal; lra); try (exfalso; nra).
Qed.

Lemma fadd_comm a b : fadd a b = fadd b a.
Proof. destruct a, b; simpl; try reflexivity; f_equal; lra. Qed.

Lemma fadd_0_l a : fadd (Fin 0) a = a.
Proof. destruct a; simpl; try reflexivity; f_equal; lra. Qed.

Lemma fadd_0_r a : fadd a (Fin 0) = a.
Proof. rewrite fadd_comm. apply fadd_0_l. Qed.

Lemma fadd_assoc a b c : fadd a (fadd b c) = fadd (fadd a b) c.
Proof. destruct a, b, c; simpl; try reflexivity; f_equal; lra. Qed.

(** ** Indexing with loop variables *)

Lemma axis_index_nat n k :
  axis_index n (Z.of_nat k) = if decide (k < n) then Some k else None.
Proof.
  unfold axis_index.
  destruct (decide (k < n)) as [Hlt|Hge].
  - replace (0 <=? Z.of_nat k)%Z with true by (symmetry; apply Z.leb_le; lia).
    replace (Z.of_nat k <? Z.of_nat n)%Z with true by (symmetry; apply Z.ltb_lt; lia).
    simpl. by rewrite Nat2Z.id.
  - replace (Z.of_nat k <? Z.of_nat n)%Z with false by (symmetry; apply Z.ltb_ge; lia).
    replace (Z.of_nat k <? 0)%Z with false by (symmetry; apply Z.ltb_ge; lia).
    by rewrite !andb_false_r.
Qed.

Lemma axis_index_lt n i k : axis_index n i = Some k → k < n.
Proof.
  unfold axis_index. intros H.
  destruct ((0 <=? i) && (i <? Z.of_nat n))%Z eqn:E1.
  - apply andb_true_iff in E1 as [?%Z.leb_le ?%Z.ltb_lt]. inversion H. lia.
  - destruct ((- Z.of_nat n <=? i) && (i <? 0))%Z eqn:E2; [|done].
    apply andb_true_iff in E2 as [?%Z.leb_le ?%Z.ltb_lt]. inversion H. lia.
Qed.

Lemma getitem_nat {A} (a : list A) k :
  getitem a (Z.of_nat k) = match a !! k with Some x => Ok x | None => IndexError end.
Proof.
  unfold getitem. rewrite axis_index_nat.
  destruct (decide (k < length a)) as [?|Hge]; [done|].
  rewrite (lookup_ge_None_2 a k); [done|lia].
Qed.

(** ** Cells of a well-formed array *)

Lemma cell_is_Some M p m :
  wf M → p < shape0 M → m < shape1 M → is_Some (cell M p m).
Proof.
  intros Hwf Hp Hm. unfold cell, shape0 in *.
  destruct (lookup_lt_is_Some_2 (rows M) p Hp) as [r Hr]. rewrite Hr.
  apply lookup_lt_is_Some_2.
  rewrite (proj1 (Forall_lookup _ _) Hwf p r Hr). done.
Qed.

Lemma cell_Some_lt M p m x :
  wf M → cell M p m = Some x → p < shape0 M ∧ m < shape1 M.
Proof.
  intros Hwf. unfold cell, shape0.
  destruct (rows M !! p) as [r|] eqn:Hr; [|done].
  intros Hm. split; [by eapply lookup_lt_Some|].
  rewrite <- (proj1 (Forall_lookup _ _) Hwf p r Hr). by eapply lookup_lt_Some.
Qed.

(** Two well-formed arrays of one shape with the same cells are equal. *)
Lemma ndarray2_ext M N :
  wf M → wf N → shape0 M = shape0 N → shape1 M = shape1 N →
  (∀ p m, p < shape0 M → m < shape1 M → cell M p m = cell N p m) →
  M = N.
Proof.
  destruct M as [w rs], N as [w' rs']. unfold wf, shape0, cell. simpl.
  intros Hwf Hwf' Hlen -> Hcell. f_equal.
  apply list_eq_same_length with (length rs); [done..|].
  intros p r r' Hp Hr Hr'.
  pose proof (proj1 (Forall_lookup _ _) Hwf p r Hr) as Hlr.
  pose proof (proj1 (Forall_lookup _ _) Hwf' p r' Hr') as Hlr'.
  simpl in *.
  apply list_eq_same_length with w'; [done..|].
  intros m x y Hm Hx Hy.
  specialize (Hcell p m Hp Hm). rewrite Hr, Hr' in Hcell. congruence.
Qed.

Lemma getitem2_nat M p m :
  getitem2 M (Z.of_nat p) (Z.of_nat m) =
  if decide (p < shape0 M ∧ m < shape1 M)
  then match cell M p m with Some x => Ok x | None => IndexError end
  else IndexError.
Proof.
  unfold getitem2. rewrite !axis_index_nat.
  repeat case_decide; try done; lia.
Qed.

(** What an in-place store does to the cells. *)
Lemma setitem2_Done M p m v M' :
  setitem2 M (Z.of_nat p) (Z.of_nat m) v = Done M' →
  p < shape0 M ∧ m < shape1 M ∧
  shape0 M' = shape0 M ∧ shape1 M' = shape1 M ∧ (wf M → wf M') ∧
  cell M' p m = Some v ∧
  (∀ p' m', ¬ (p' = p ∧ m' = m) → cell M' p' m' = cell M p' m').
Proof.
  unfold setitem2. rewrite !axis_index_nat.
  destruct (decide (p < shape0 M)) as [Hp|]; [|done].
  destruct (decide (m < shape1 M)) as [Hm|]; [|done].
  destruct (rows M !! p) as [r|] eqn:Hr; [|done].
  destruct (decide (m < length r)) as [Hmr|]; [|done].
  intros [= <-]. unfold shape0, wf, cell in *. simpl.
  split_and!; try done.
  - by rewrite length_insert.
  - intros Hwf. apply Forall_insert; [done|].
    rewrite length_insert. by apply (proj1 (Forall_lookup _ _) Hwf p r).
  - rewrite list_lookup_insert_eq by done. by apply list_lookup_insert_eq.
  - intros p' m' Hne. destruct (decide (p' = p)) as [->|Hpp].
    + rewrite list_lookup_insert_eq by done. rewrite Hr.
      apply list_lookup_insert_ne. naive_solver.
    + by rewrite list_lookup_insert_ne.
Qed.

Lemma setitem2_ok M p m v :
  wf M → p < shape0 M → m < shape1 M →
  ∃ M', setitem2 M (Z.of_nat p) (Z.of_nat m) v = Done M'.
Proof.
  intros Hwf Hp Hm. unfold setitem2. rewrite !axis_index_nat.
  rewrite !decide_True by done.
  destruct (lookup_lt_is_Some_2 (rows M) p Hp) as [r Hr]. rewrite Hr.
  rewrite decide_True; [eauto|].
  by rewrite (proj1 (Forall_lookup _ _) Hwf p r Hr).
Qed.

(** ** Loops *)

Lemma for_each_app l1 l2 body b :
  for_each (l1 ++ l2) body b = and_then (for_each l1 body b) (for_each l2 body).
Proof.
  revert b. induction l1 as [|i l1 IH]; intros b; simpl; [done|].
  destruct (body i b); simpl; [apply IH|done].
Qed.

Lemma for_range_S n body b :
  for_range (S n) body b = and_then (for_range n body b) (body n).
Proof.
  unfold for_range. rewrite seq_S, for_each_app. simpl.
  destruct (for_each (seq 0 n) body b); simpl; [|done].
  by destruct (body n buf).
Qed.

Lemma and_then_Done r k b' :
  and_then r k = Done b' → ∃ b1, r = Done b1 ∧ k b1 = Done b'.
Proof. destruct r; simpl; [eauto|done]. Qed.

(** ** The two cell statements *)

Lemma assign_cell_statement : cell_statement (λ _ x, x) assign_cell.
Proof.
  split.
  - intros M cc p m b b' Hwf. unfold assign_cell.
    destruct (getitem2 M cc (Z.of_nat m)) as [x|] eqn:Hx; [|done].
    intros (Hp & Hm & H0 & H1 & Hwf' & Hc & Hfr)%setitem2_Done.
    destruct (cell_is_Some b p m Hwf Hp Hm) as [old Hold].
    split_and!; eauto.
  - intros M cc p m b x Hwf Hp Hm Hx. unfold assign_cell. rewrite Hx.
    by apply setitem2_ok.
Qed.

Lemma multiply_cell_statement : cell_statement fmul multiply_cell.
Proof.
  split.
  - intros M cc p m b b' Hwf. unfold multiply_cell. rewrite getitem2_nat.
    case_decide as Hpm; [|done].
    destruct (cell b p m) as [old|] eqn:Hold; [|done].
    destruct (getitem2 M cc (Z.of_nat m)) as [x|] eqn:Hx; [|done].
    intros (Hp & Hm & H0 & H1 & Hwf' & Hc & Hfr)%setitem2_Done.
    split_and!; eauto.
  - intros M cc p m b x Hwf Hp Hm Hx. unfold multiply_cell.
    rewrite getitem2_nat, decide_True by done.
    destruct (cell_is_Some b p m Hwf Hp Hm) as [old ->]. rewrite Hx.
    by apply setitem2_ok.
Qed.

(** ** One pass over the parent's patterns *)

Section Pass.
Variable f : float64 → float64 → float64.
Variable store : ndarray2 → Z → nat → nat → ndarray2 → run.
Hypothesis Hstore : cell_statement f store.

(** The loop over the motifs of one row. *)
Lemma row_loop_Done M cc p n b b' :
  wf b → for_range n (store M cc p) b = Done b' →
  wf b' ∧ shape0 b' = shape0 b ∧ shape1 b' = shape1 b ∧
  (∀ m, m < n → p < shape0 b ∧ m < shape1 b ∧
     ∃ x old, getitem2 M cc (Z.of_nat m) = Ok x ∧ cell b p m = Some old ∧
              cell b' p m = Some (f old x)) ∧
  (∀ p' m', ¬ (p' = p ∧ m' < n) → cell b' p' m' = cell b p' m').
Proof.
  intros Hwf. revert b'. induction n as [|n IH]; intros b'.
  - intros [= <-]. split_and!; try done. lia.
  - rewrite for_range_S. intros (b1 & H1 & Hst)%and_then_Done.
    destruct (IH b1 H1) as (Hwf1 & Hs0 & Hs1 & Hin & Hfr).
    destruct Hstore as [HD _].
    destruct (HD _ _ _ _ _ _ Hwf1 Hst)
      as (Hp & Hm & Hs0' & Hs1' & Hwf' & (x & old & Hx & Hold & Hnew) & Hfr').
    split_and!; try congruence.
    + intros m Hlt. destruct (decide (m = n)) as [->|Hne].
      * split_and!; try congruence. exists x, old. split_and!; try done.
        rewrite <- Hold. symmetry. apply Hfr. lia.
      * destruct (Hin m ltac:(lia)) as (? & ? & x' & old' & ? & ? & ?).
        split_and!; try done. exists x', old'. split_and!; try done.
        rewrite Hfr' by (intros [? ?]; lia). done.
    + intros p' m' Hne. rewrite Hfr' by (intros [-> ->]; apply Hne; split; [done|lia]).
      apply Hfr. intros [-> ?]. apply Hne. split; [done|lia].
Qed.

Lemma row_loop_ok M cc p n b :
  wf b → (0 < n → p < shape0 b) → n ≤ shape1 b →
  (∀ m, m < n → ∃ x, getitem2 M cc (Z.of_nat m) = Ok x) →
  ∃ b', for_range n (store M cc p) b = Done b'.
Proof.
  intros Hwf. induction n as [|n IH]; intros Hp Hn Hx.
  - by exists b.
  - destruct IH as [b1 H1]; [lia|lia|intros; apply Hx; lia|].
    rewrite for_range_S, H1. simpl.
    destruct (row_loop_Done _ _ _ _ _ _ Hwf H1) as (Hwf1 & Hs0 & Hs1 & _).
    destruct (Hx n ltac:(lia)) as [x Hxn].
    destruct Hstore as [_ Hok]. eapply Hok; eauto; lia.
Qed.

(** The loop over the rows. *)
Lemma child_pass_Done index M h w b b' :
  wf b → child_pass store index M h w b = Done b' →
  wf b' ∧ shape0 b' = shape0 b ∧ shape1 b' = shape1 b ∧
  (∀ p, p < h → is_Some (index !! p)) ∧
  (∀ p m, p < h → m < w → p < shape0 b ∧ m < shape1 b ∧
     ∃ x old, child_value index M p m = Ok x ∧ cell b p m = Some old ∧
              cell b' p m = Some (f old x)) ∧
  (∀ p m, ¬ (p < h ∧ m < w) → cell b' p m = cell b p m).
Proof.
  intros Hwf. unfold child_pass. revert b'.
  induction h as [|h IH]; intros b'.
  - intros [= <-]. split_and!; try done; lia.
  - rewrite for_range_S. intros (b1 & H1 & Hrow)%and_then_Done.
    destruct (IH b1 H1) as (Hwf1 & Hs0 & Hs1 & Hidx & Hin & Hfr).
    rewrite getitem_nat in Hrow.
    destruct (index !! h) as [cc|] eqn:Hcc; [|done].
    destruct (row_loop_Done _ _ _ _ _ _ Hwf1 Hrow)
      as (Hwf' & Hs0' & Hs1' & Hin' & Hfr').
    split_and!; try congruence.
    + intros p Hp. destruct (decide (p = h)) as [->|]; [by rewrite Hcc|].
      apply Hidx. lia.
    + intros p m Hp Hm. destruct (decide (p = h)) as [->|Hne].
      * destruct (Hin' m Hm) as (? & ? & x & old & Hx & Hold & Hnew).
        split_and!; try congruence. exists x, old. split_and!; try done.
        -- unfold child_value. by rewrite getitem_nat, Hcc.
        -- rewrite <- Hold. symmetry. apply Hfr. lia.
      * destruct (Hin p m ltac:(lia) Hm) as (? & ? & x & old & ? & ? & ?).
        split_and!; try done. exists x, old. split_and!; try done.
        rewrite Hfr' by (intros [? ?]; lia). done.
    + intros p m Hne. rewrite Hfr' by (intros [-> ?]; apply Hne; split; [lia|done]).
      apply Hfr. intros [? ?]. apply Hne. split; [lia|done].
Qed.

Lemma child_pass_ok index M h w b :
  wf b → (∀ p, p < h → is_Some (index !! p)) →
  (∀ p m, p < h → m < w → p < shape0 b ∧ m < shape1 b ∧
     ∃ x, child_value index M p m = Ok x) →
  ∃ b', child_pass store index M h w b = Done b'.
Proof.
  intros Hwf. unfold child_pass. induction h as [|h IH]; intros Hidx Hin.
  - by exists b.
  - destruct IH as [b1 H1]; [intros; apply Hidx; lia|intros; apply Hin; lia|].
    rewrite for_range_S, H1. simpl.
    destruct (child_pass_Done _ _ _ _ _ _ Hwf H1) as (Hwf1 & Hs0 & Hs1 & _).
    rewrite getitem_nat.
    destruct (Hidx h ltac:(lia)) as [cc Hcc]. rewrite Hcc.
    apply row_loop_ok; [done|..].
    + intros Hw. destruct (Hin h 0 ltac:(lia) Hw) as (? & _). congruence.
    + destruct w as [|w]; [lia|].
      destruct (Hin h w ltac:(lia) ltac:(lia)) as (_ & ? & _). lia.
    + intros m Hm. destruct (Hin h m ltac:(lia) Hm) as (_ & _ & x & Hx).
      unfold child_value in Hx. rewrite getitem_nat, Hcc in Hx. eauto.
Qed.
End Pass.

(** ** The loop over the children *)

Lemma child_step_eq ci lks child b :
  child_step ci lks child b =
  match ci !! child, lks !! child with
  | Some index, Some plhs =>
      child_pass (if decide (child = 0) then assign_cell else multiply_cell)
        index plhs (length index) (shape1 b) b
  | _, _ => Raised b
  end.
Proof.
  unfold child_step. rewrite !getitem_nat.
  destruct (ci !! child); [|done]. destruct (lks !! child); [|done].
  by case_decide.
Qed.

Lemma combine_statement child :
  cell_statement (combine child)
    (if decide (child = 0) then assign_cell else multiply_cell).
Proof.
  unfold combine. case_decide;
    [apply assign_cell_statement|apply multiply_cell_statement].
Qed.

Lemma child_step_Done ci lks child b b' :
  wf b → child_step ci lks child b = Done b' →
  wf b' ∧ shape0 b' = shape0 b ∧ shape1 b' = shape1 b ∧
  ∃ index plhs, ci !! child = Some index ∧ lks !! child = Some plhs ∧
    (∀ p m, p < length index → m < shape1 b →
       p < shape0 b ∧
       ∃ x old, child_value index plhs p m = Ok x ∧ cell b p m = Some old ∧
                cell b' p m = Some (combine child old x)) ∧
    (∀ p m, ¬ (p < length index ∧ m < shape1 b) → cell b' p m = cell b p m).
Proof.
  intros Hwf. rewrite child_step_eq.
  destruct (ci !! child) as [index|]; [|done].
  destruct (lks !! child) as [plhs|]; [|done].
  intros Hpass.
  destruct (child_pass_Done _ _ (combine_statement child) _ _ _ _ _ _ Hwf Hpass)
    as (Hwf' & Hs0 & Hs1 & _ & Hin & Hfr).
  split_and!; try done. exists index, plhs. split_and!; try done.
  intros p m Hp Hm. destruct (Hin p m Hp Hm) as (? & _ & ?). done.
Qed.

Lemma child_step_ok ci lks res child b :
  wf b → shape0 b = shape0 res → shape1 b = shape1 res →
  accesses_in_range ci lks res child →
  ∃ b', child_step ci lks child b = Done b'.
Proof.
  intros Hwf Hs0 Hs1 (index & plhs & Hi & Hl & Hin).
  rewrite child_step_eq, Hi, Hl.
  apply (child_pass_ok _ _ (combine_statement child)); [done|..].
  - intros p Hp. by apply lookup_lt_is_Some_2.
  - intros p m Hp Hm. rewrite Hs1 in Hm. destruct (Hin p m Hp Hm) as [? ?].
    split_and!; [congruence|lia|done].
Qed.

Lemma children_Done ci lks res k b :
  wf res → for_range k (child_step ci lks) res = Done b →
  wf b ∧ shape0 b = shape0 res ∧ shape1 b = shape1 res ∧
  ∀ child, child < k → accesses_in_range ci lks res child.
Proof.
  intros Hwf. revert b. induction k as [|k IH]; intros b.
  - intros [= <-]. split_and!; try done. lia.
  - rewrite for_range_S. intros (b1 & H1 & Hst)%and_then_Done.
    destruct (IH b1 H1) as (Hwf1 & Hs0 & Hs1 & Hacc).
    destruct (child_step_Done _ _ _ _ _ Hwf1 Hst)
      as (Hwf' & Hs0' & Hs1' & index & plhs & Hi & Hl & Hin & _).
    split_and!; try congruence.
    intros child Hc. destruct (decide (child = k)) as [->|]; [|apply Hacc; lia].
    exists index, plhs. split_and!; try done.
    intros p m Hp Hm. rewrite <- Hs1 in Hm.
    destruct (Hin p m Hp Hm) as (? & x & ? & ? & _). split; [congruence|eauto].
Qed.

Lemma children_ok ci lks res k :
  wf res → (∀ child, child < k → accesses_in_range ci lks res child) →
  ∃ b, for_range k (child_step ci lks) res = Done b.
Proof.
  intros Hwf. induction k as [|k IH]; intros Hacc.
  - by exists res.
  - destruct IH as [b1 H1]; [intros; apply Hacc; lia|].
    rewrite for_range_S, H1. simpl.
    destruct (children_Done _ _ _ _ _ Hwf H1) as (Hwf1 & Hs0 & Hs1 & _).
    eapply child_step_ok; eauto.
Qed.

(** ** The contract of the node combiner *)

Lemma fprod_snoc l x : fprod (l ++ [x]) = fmul (fprod l) x.
Proof.
  unfold fprod. induction l as [|a l IH]; cbn [foldr app].
  - by rewrite fmul_1_r, fmul_1_l.
  - by rewrite IH, fmul_assoc.
Qed.


Lemma axis_index_accepts n v :
  (- Z.of_nat n ≤ v < Z.of_nat n)%Z → ∃ q, axis_index n v = Some q ∧ q < n.
Proof.
  intros Hv. unfold axis_index.
  destruct ((0 <=? v) && (v <? Z.of_nat n))%Z eqn:E1.
  - apply andb_true_iff in E1 as [?%Z.leb_le ?%Z.ltb_lt].
    eexists. split; [done|lia].
  - destruct ((- Z.of_nat n <=? v) && (v <? 0))%Z eqn:E2.
    + apply andb_true_iff in E2 as [?%Z.leb_le ?%Z.ltb_lt].
      eexists. split; [done|lia].
    + exfalso. apply andb_false_iff in E1, E2.
      destruct E1 as [?%Z.leb_gt|?%Z.ltb_ge], E2 as [?%Z.leb_gt|?%Z.ltb_ge]; lia.
Qed.

Lemma covers_value res index plhs p m :
  covers res index plhs → p < length index → m < shape1 res →
  ∃ x, child_value index plhs p m = Ok x.
Proof.
  intros (Hlen & Hwf & Hw & Hrows) Hp Hm. unfold child_value.
  rewrite getitem_nat.
  destruct (lookup_lt_is_Some_2 index p Hp) as [v Hv]. rewrite Hv.
  pose proof (proj1 (Forall_lookup _ _) Hrows p v Hv) as Hrange. simpl in Hrange.
  destruct (axis_index_accepts _ _ Hrange) as (q & Hq & Hlt).
  unfold getitem2. rewrite Hq, axis_index_nat, decide_True by lia.
  destruct (cell_is_Some plhs q m Hwf) as [x ->]; [lia|lia|eauto].
Qed.

Lemma valid_child_covers res index plhs :
  valid_child res index plhs → covers res index plhs.
Proof.
  intros (Hlen & Hwf & Hw & Hrows). split_and!; [lia|done|lia|].
  eapply Forall_impl; [exact Hrows|]. simpl. intros v Hv. lia.
Qed.

Lemma valid_child_value res index plhs p m :
  valid_child res index plhs → p < shape0 res → m < shape1 res →
  ∃ x, child_value index plhs p m = Ok x.
Proof.
  intros Hvalid Hp Hm. pose proof Hvalid as (Hlen & _).
  eapply covers_value; [by apply valid_child_covers|lia|done].
Qed.

Lemma consistent_in_range ci res lks child :
  consistent ci res lks → child < length ci → accesses_in_range ci lks res child.
Proof.
  intros [Hwf Hall] Hc.
  destruct (lookup_lt_is_Some_2 ci child Hc) as [index Hi].
  destruct (Forall2_lookup_l _ _ _ _ _ Hall Hi) as (plhs & Hl & Hvalid).
  exists index, plhs. split_and!; try done.
  intros p m Hp Hm. destruct Hvalid as (Hlen & ?). split; [lia|].
  eapply valid_child_value; [done|lia|done].
Qed.

(** After the first [k >= 1] children every cell holds the product of what
    those children contribute to it. *)
Lemma children_cells ci res lks k b :
  consistent ci res lks → k ≤ length ci →
  for_range k (child_step ci lks) res = Done b →
  ∀ p m, p < shape0 res → m < shape1 res →
    0 < k →
    ∃ vals, length vals = k ∧
      (∀ c index plhs, c < k → ci !! c = Some index → lks !! c = Some plhs →
         ∃ v, vals !! c = Some v ∧ child_value index plhs p m = Ok v) ∧
      cell b p m = Some (fprod vals).
Proof.
  intros Hcons. pose proof Hcons as [Hwf Hall]. revert b.
  induction k as [|k IH]; intros b Hk Hrun p m Hp Hm Hpos; [lia|].
  rewrite for_range_S in Hrun. apply and_then_Done in Hrun as (b1 & H1 & Hst).
  destruct (children_Done _ _ _ _ _ Hwf H1) as (Hwf1 & Hs0 & Hs1 & _).
  destruct (child_step_Done _ _ _ _ _ Hwf1 Hst)
    as (_ & _ & _ & index & plhs & Hi & Hl & Hin & _).
  pose proof (Forall2_lookup_lr _ _ _ _ _ _ Hall Hi Hl) as (Hlen & _).
  destruct (Hin p m ltac:(lia) ltac:(lia)) as (_ & x & old & Hx & Hold & Hnew).
  destruct (decide (k = 0)) as [->|Hk0].
  - exists [x]. split_and!; [done| |].
    + intros c index' plhs' Hc Hi' Hl'. assert (c = 0) as -> by lia.
      exists x. split; [done|congruence].
    + rewrite Hnew. unfold combine, fprod. cbn [foldr]. by rewrite fmul_1_r.
  - destruct (IH b1 ltac:(lia) H1 p m Hp Hm ltac:(lia)) as (vals & Hlv & Hvals & Hcell).
    exists (vals ++ [x]). split_and!.
    + rewrite length_app. simpl. lia.
    + intros c index' plhs' Hc Hi' Hl'. destruct (decide (c = k)) as [->|Hne].
      * exists x. split; [|congruence].
        rewrite lookup_app_r by lia. by rewrite Hlv, Nat.sub_diag.
      * destruct (Hvals c index' plhs' ltac:(lia) Hi' Hl') as (v & Hv & Hcv).
        exists v. split; [|done]. by rewrite lookup_app_l by lia.
    + rewrite Hnew, fprod_snoc. unfold combine. rewrite decide_False by done.
      congruence.
Qed.

Lemma getitem2_cell b p m x :
  p < shape0 b → m < shape1 b → cell b p m = Some x →
  getitem2 b (Z.of_nat p) (Z.of_nat m) = Ok x.
Proof. intros Hp Hm Hc. by rewrite getitem2_nat, decide_True, Hc. Qed.

Lemma getitem2_Ok_cell b p m x :
  getitem2 b (Z.of_nat p) (Z.of_nat m) = Ok x → cell b p m = Some x.
Proof.
  rewrite getitem2_nat. case_decide; [|done].
  destruct (cell b p m); [|done]. by intros [= ->].
Qed.

Lemma child_values_lookup ci lks p m vals c index plhs :
  child_values ci lks p m vals → ci !! c = Some index → lks !! c = Some plhs →
  ∃ v, vals !! c = Some v ∧ child_value index plhs p m = Ok v.
Proof.
  intros Hvals Hi Hl.
  assert (zip ci lks !! c = Some (index, plhs)) as Hz.
  { apply lookup_zip_with_Some. eauto. }
  destruct (Forall2_lookup_l _ _ _ _ _ Hvals Hz) as (v & Hv & Hcv). eauto.
Qed.

Lemma child_values_intro ci lks p m vals :
  length ci = length lks → length vals = length ci →
  (∀ c index plhs, c < length ci → ci !! c = Some index → lks !! c = Some plhs →
     ∃ v, vals !! c = Some v ∧ child_value index plhs p m = Ok v) →
  child_values ci lks p m vals.
Proof.
  intros Hlen Hlv Hpt. apply Forall2_same_length_lookup_2.
  - rewrite length_zip_with. lia.
  - intros c [index plhs] v (? & ? & [= <- <-] & Hi & Hl)%lookup_zip_with_Some Hv.
    destruct (Hpt c index plhs) as (v' & Hv' & ?); [by eapply lookup_lt_Some|done..|].
    simpl. congruence.
Qed.

Lemma consistent_length ci res lks : consistent ci res lks → length ci = length lks.
Proof. intros [_ Hall]. by eapply Forall2_length. Qed.

(** The returned buffer holds, in every cell, the product over all children. *)
Lemma combiner_product ci res lks :
  ci ≠ [] → consistent ci res lks →
  ∃ out, sum_input_likelihoods ci res lks = Done out ∧
    wf out ∧ shape0 out = shape0 res ∧ shape1 out = shape1 res ∧
    ∀ p m, p < shape0 res → m < shape1 res →
      ∃ vals, child_values ci lks p m vals ∧
              getitem2 out (Z.of_nat p) (Z.of_nat m) = Ok (fprod vals).
Proof.
  intros Hne Hcons. pose proof Hcons as [Hwf Hall].
  assert (0 < length ci) as Hc by (destruct ci; [done|simpl; lia]).
  unfold sum_input_likelihoods.
  destruct (children_ok ci lks res (length ci) Hwf) as [out Hout].
  { intros. by apply consistent_in_range. }
  destruct (children_Done _ _ _ _ _ Hwf Hout) as (Hwf' & Hs0 & Hs1 & _).
  exists out. split_and!; try done.
  intros p m Hp Hm.
  destruct (children_cells _ _ _ _ _ Hcons (le_n _) Hout p m Hp Hm Hc)
    as (vals & Hlv & Hpt & Hcell).
  exists vals. split.
  - apply child_values_intro; [by eapply consistent_length|done|done].
  - apply getitem2_cell; [lia|lia|done].
Qed.

(** ** The accumulation loop of the two aggregators *)

Lemma foldl_fadd acc l : foldl fadd acc l = fadd acc (fsum l).
Proof.
  unfold fsum. revert acc. induction l as [|t l IH]; intros acc; cbn [foldl foldr].
  - by rewrite fadd_0_r.
  - by rewrite IH, fadd_assoc.
Qed.

Lemma accumulate_shift l term acc :
  accumulate (S <$> l) term acc = accumulate l (term ∘ S) acc.
Proof.
  revert acc. induction l as [|i l IH]; intros acc; simpl; [done|].
  destruct (term (S i)); [apply IH|done].
Qed.

Lemma accumulate_ext l term term' acc :
  (∀ i, term i = term' i) → accumulate l term acc = accumulate l term' acc.
Proof.
  intros Heq. revert acc. induction l as [|i l IH]; intros acc; simpl; [done|].
  rewrite Heq. destruct (term' i); [apply IH|done].
Qed.

Lemma product_at_cons x a y b i :
  product_at (x :: a) (y :: b) (S i) = product_at a b i.
Proof. unfold product_at. by rewrite !getitem_nat. Qed.

(** With enough entries in [a], the loop returns the running sum of the
    products [a[i] * b[i]] over the positions of [b]. *)
Lemma accumulate_products a b acc :
  length b ≤ length a →
  accumulate (seq 0 (length b)) (product_at a b) acc
  = Ok (foldl fadd acc (zip_with fmul a b)).
Proof.
  revert a acc. induction b as [|y b IH]; intros a acc Hlen.
  - by destruct a.
  - destruct a as [|x a]; simpl in Hlen; [lia|].
    cbn [length seq accumulate]. unfold product_at at 1. rewrite !getitem_nat.
    cbn [lookup list_lookup zip_with foldl].
    rewrite <- fmap_S_seq, accumulate_shift.
    rewrite <- (IH a (fadd acc (fmul x y))) by lia.
    apply accumulate_ext. intros i. apply product_at_cons.
Qed.

Lemma step1_dot input_likelihoods mprobs :
  length mprobs ≤ length input_likelihoods →
  get_total_log_likelihood_step1 input_likelihoods mprobs
  = Ok (dot input_likelihoods mprobs).
Proof.
  intros Hlen. unfold get_total_log_likelihood_step1, dot.
  by rewrite accumulate_products, foldl_fadd, fadd_0_l.
Qed.

Lemma zip_with_take_l {A B C} (g : A → B → C) (a : list A) (b : list B) :
  zip_with g (take (length b) a) b = zip_with g a b.
Proof.
  revert a. induction b as [|y b IH]; intros [|x a]; simpl; try done.
  by rewrite IH.
Qed.

Lemma log_sum_terms lhs counts :
  length counts ≤ length lhs →
  get_log_sum_across_sites lhs counts
  = Ok (fsum (zip_with fmul (flog <$> lhs) counts)).
Proof.
  intros Hlen. unfold get_log_sum_across_sites.
  rewrite accumulate_products by (by rewrite length_map).
  by rewrite foldl_fadd, fadd_0_l.
Qed.

Lemma flog_pos x : (0 < x)%R → flog (Fin x) = Fin (ln x).
Proof.
  intros Hx. unfold flog. destruct (total_order_T 0 x) as [[?|?]|?]; [done|lra..].
Qed.

Lemma flog_zero : flog (Fin 0) = NInf.
Proof.
  unfold flog. destruct (total_order_T 0 0) as [[?|?]|?]; [lra|done|lra].
Qed.

Lemma fmul_ninf_pos c : (0 < c)%R → fmul NInf (Fin c) = NInf.
Proof.
  intros Hc. simpl. unfold inf_times.
  destruct (total_order_T 0 c) as [[?|?]|?]; [done|lra..].
Qed.

(** * Properties of the node combiner *)

Lemma example_consistent res :
  wf res → shape0 res = 2 → shape1 res = 2 →
  consistent [[0; 0]; [1; 0]]%Z res [plhs_A; plhs_B].
Proof.
  intros Hwf H0 H1. split; [done|].
  repeat constructor; simpl; try lia; try done.
Qed.

(** Two children combined into a stale buffer. *)
Example combiner_two_children :
  sum_input_likelihoods [[0; 0]; [1; 0]]%Z stale_buffer [plhs_A; plhs_B]
  = Done (Arr2 2 [[Fin (1 * 1); Fin (0 * 0)]; [Fin (1 * 0); Fin (0 * 1)]]).
Proof. reflexivity. Qed.

(** Negative map entries count rows from the end, as in NumPy. *)
Example combiner_negative_index :
  sum_input_likelihoods [[-1; -2]]%Z stale_buffer [plhs_B]
  = Done (Arr2 2 [[Fin 1; Fin 0]; [Fin 0; Fin 1]]).
Proof. reflexivity. Qed.

(** C9. With no children the loop body never runs: the call raises nothing
    and returns the caller's buffer exactly as it was passed in, stale
    content included. *)
Theorem sum_input_likelihoods_no_children res lks :
  sum_input_likelihoods [] res lks = Done res.
Proof. reflexivity. Qed.

(** The first child's pass leaves nothing of the old content behind when
    its map covers every row. *)
Lemma first_pass_overwrites ci lks res1 res2 index b :
  wf res1 → wf res2 → shape0 res1 = shape0 res2 → shape1 res1 = shape1 res2 →
  ci !! 0 = Some index → length index = shape0 res1 →
  child_step ci lks 0 res1 = Done b → child_step ci lks 0 res2 = Done b.
Proof.
  intros Hwf1 Hwf2 Hs0 Hs1 Hi Hlen Hb.
  destruct (child_step_Done _ _ _ _ _ Hwf1 Hb)
    as (Hwfb & Hb0 & Hb1 & index' & plhs & Hi' & Hl & Hin & _).
  assert (index' = index) as -> by congruence.
  destruct (child_step_ok ci lks res2 0 res2 Hwf2 eq_refl eq_refl) as [b2 Hb2].
  { exists index, plhs. split_and!; try done. intros p m Hp Hm.
    destruct (Hin p m Hp ltac:(lia)) as (? & x & ? & ? & _). split; [lia|eauto]. }
  rewrite Hb2. f_equal.
  destruct (child_step_Done _ _ _ _ _ Hwf2 Hb2)
    as (Hwfb2 & Hc0 & Hc1 & index' & plhs' & Hi2 & Hl2 & Hin2 & _).
  assert (index' = index) as -> by congruence.
  assert (plhs' = plhs) as -> by congruence.
  apply ndarray2_ext; [done|done|lia|lia|].
  intros p m Hp Hm.
  destruct (Hin p m ltac:(lia) ltac:(lia)) as (_ & x & old & Hx & _ & Hnew).
  destruct (Hin2 p m ltac:(lia) ltac:(lia)) as (_ & x2 & old2 & Hx2 & _ & Hnew2).
  rewrite Hnew, Hnew2. unfold combine. simpl. congruence.
Qed.

Lemma sum_input_likelihoods_first ci res lks :
  ci ≠ [] →
  sum_input_likelihoods ci res lks
  = and_then (child_step ci lks 0 res)
      (for_each (seq 1 (length ci - 1)) (child_step ci lks)).
Proof.
  intros Hne. unfold sum_input_likelihoods, for_range.
  destruct ci as [|index ci]; [done|].
  cbn [length]. replace (S (length ci) - 1) with (length ci) by lia.
  by cbn [seq for_each].
Qed.

(** C5. With at least one child whose map has one entry per row of the
    buffer, the result does not depend on what the buffer held: on two
    buffers of one shape the first child's pass ends in the same buffer,
    and so the two calls return the same matrix. *)
Theorem sum_input_likelihoods_buffer_reuse ci lks res1 res2 index :
  wf res1 → wf res2 → shape0 res1 = shape0 res2 → shape1 res1 = shape1 res2 →
  ci !! 0 = Some index → length index = shape0 res1 →
  (∀ b, child_step ci lks 0 res1 = Done b ↔ child_step ci lks 0 res2 = Done b) ∧
  (∀ out, sum_input_likelihoods ci res1 lks = Done out ↔
          sum_input_likelihoods ci res2 lks = Done out).
Proof.
  intros Hwf1 Hwf2 Hs0 Hs1 Hi Hlen.
  assert (∀ b, child_step ci lks 0 res1 = Done b ↔ child_step ci lks 0 res2 = Done b)
    as Hfirst.
  { intros b. split; eapply first_pass_overwrites; eauto; lia. }
  split; [done|].
  assert (ci ≠ []) as Hne by (by destruct ci).
  intros out. rewrite !sum_input_likelihoods_first by done.
  split; intros (b & Hb & Hrest)%and_then_Done.
  - apply Hfirst in Hb. by rewrite Hb.
  - apply Hfirst in Hb. by rewrite Hb.
Qed.

Lemma sum_input_likelihoods_buffer_reuse_witness :
  wf stale_buffer ∧ wf ones_buffer ∧
  (∀ b, child_step [[0; 0]; [1; 0]]%Z [plhs_A; plhs_B] 0 stale_buffer = Done b ↔
        child_step [[0; 0]; [1; 0]]%Z [plhs_A; plhs_B] 0 ones_buffer = Done b) ∧
  (∀ out,
     sum_input_likelihoods [[0; 0]; [1; 0]]%Z stale_buffer [plhs_A; plhs_B] = Done out ↔
     sum_input_likelihoods [[0; 0]; [1; 0]]%Z ones_buffer [plhs_A; plhs_B] = Done out).
Proof.
  assert (wf stale_buffer) as H1 by (repeat constructor).
  assert (wf ones_buffer) as H2 by (repeat constructor).
  split; [exact H1|]. split; [exact H2|].
  apply (sum_input_likelihoods_buffer_reuse [[0; 0]; [1; 0]]%Z [plhs_A; plhs_B]
           stale_buffer ones_buffer [0; 0]%Z H1 H2);
    reflexivity.
Defined.

Lemma child_values_fmap ci lks p m vals :
  child_values ci lks p m vals → vals = child_value_or_nan p m <$> zip ci lks.
Proof.
  unfold child_values. induction 1 as [|child v l vs Hv _ IH]; [done|].
  rewrite fmap_cons, <- IH. unfold child_value_or_nan. by rewrite Hv.
Qed.




(** ** Inconsistent dimensions *)

(** C7, as stated, fails: the call below has mismatched dimensions of all
    three kinds, yet it raises nothing and returns a buffer, whose first row
    was computed and whose second row is still stale. *)
Lemma shape_mismatch_not_raised :
  wf narrow_buffer ∧ wf plhs_A ∧ wf plhs_B ∧
  length [[0%Z]] ≠ length [plhs_A; plhs_B] ∧
  (∃ index, index ∈ [[0%Z]] ∧ length index ≠ shape0 narrow_buffer) ∧
  (∃ plhs, plhs ∈ [plhs_A; plhs_B] ∧ shape1 plhs ≠ shape1 narrow_buffer) ∧
  shape_mismatch [[0%Z]] narrow_buffer [plhs_A; plhs_B] ∧
  sum_input_likelihoods [[0%Z]] narrow_buffer [plhs_A; plhs_B]
  = Done (Arr2 1 [[Fin 1]; [NaN]]) ∧
  ¬ ∃ b, sum_input_likelihoods [[0%Z]] narrow_buffer [plhs_A; plhs_B] = Raised b.
Proof.
  split; [repeat constructor|]. split; [repeat constructor|].
  split; [repeat constructor|]. split; [by vm_compute|].
  split; [exists [0%Z]; split; [apply list_elem_of_here|by vm_compute]|].
  split; [exists plhs_A; split; [apply list_elem_of_here|by vm_compute]|].
  split; [left; by vm_compute|]. split; [reflexivity|].
  intros [b Hb]. discriminate Hb.
Qed.

(** * Properties of the root aggregator *)

(** A one-hot root row against uniform motif probabilities. *)
Example step1_one_hot :
  get_total_log_likelihood_step1 [Fin 1; Fin 0] [Fin (1 / 2); Fin (1 / 2)]
  = Ok (Fin (1 / 2)).
Proof.
  unfold get_total_log_likelihood_step1. simpl. do 2 f_equal. lra.
Qed.



(** * Properties of the log aggregator *)

Lemma log_terms_reals (xs cs : list R) :
  zip_with fmul (flog <$> (Fin <$> xs)) (Fin <$> cs) = zip_with log_term xs cs.
Proof.
  revert cs. induction xs as [|x xs IH]; intros [|c cs]; simpl; try done.
  by rewrite IH.
Qed.

Lemma fsum_log_terms xs cs :
  length xs = length cs → Forall (λ x, (0 < x)%R) xs →
  fsum (zip_with log_term xs cs) = Fin (log_sum xs cs).
Proof.
  intros Hlen Hpos. revert cs Hlen.
  induction Hpos as [|x xs Hx _ IH]; intros [|c cs] Hlen; simpl in Hlen; try done.
  cbn [zip_with log_sum]. unfold fsum in *. cbn [foldr].
  rewrite IH by lia. unfold log_term. by rewrite flog_pos.
Qed.

(** Changing one finite term by [d] changes the sum by [d]. *)
Lemma fsum_insert ts p a d :
  ts !! p = Some (Fin a) →
  fsum (<[p := Fin (a + d)]> ts) = fadd (fsum ts) (Fin d).
Proof.
  unfold fsum. revert p. induction ts as [|t ts IH]; intros [|p] Hp; try done.
  - injection Hp as ->.
    change (<[0 := Fin (a + d)]> (Fin a :: ts)) with (Fin (a + d) :: ts).
    cbn [foldr]. destruct (foldr fadd (Fin 0) ts); simpl; try done. f_equal. lra.
  - change (<[S p := Fin (a + d)]> (t :: ts)) with (t :: <[p := Fin (a + d)]> ts).
    cbn [foldr]. rewrite (IH p Hp). by rewrite fadd_assoc.
Qed.

(** * Further properties of the node combiner *)

(** Cells of rows that no processed map reaches keep their content. *)
Lemma children_frame ci lks res k b p m :
  wf res → for_range k (child_step ci lks) res = Done b →
  (∀ c index, c < k → ci !! c = Some index → length index ≤ p) →
  cell b p m = cell res p m.
Proof.
  intros Hwf. revert b. induction k as [|k IH]; intros b.
  - by intros [= <-].
  - rewrite for_range_S. intros (b1 & H1 & Hst)%and_then_Done Hshort.
    destruct (children_Done _ _ _ _ _ Hwf H1) as (Hwf1 & _).
    destruct (child_step_Done _ _ _ _ _ Hwf1 Hst)
      as (_ & _ & _ & index & plhs & Hi & _ & _ & Hfr).
    rewrite Hfr.
    + apply IH; [done|]. intros c index' Hc. apply Hshort. lia.
    + intros [Hp _]. pose proof (Hshort k index ltac:(lia) Hi). lia.
Qed.

(** X1. A call that returns gives back a well-formed buffer of the shape it
    was given, and every row that lies beyond the end of all the index maps
    is exactly as it was before the call. *)
Theorem sum_input_likelihoods_frame ci res lks out :
  wf res → sum_input_likelihoods ci res lks = Done out →
  wf out ∧ shape0 out = shape0 res ∧ shape1 out = shape1 res ∧
  ∀ p, (∀ index, index ∈ ci → length index ≤ p) →
       rows out !! p = rows res !! p.
Proof.
  intros Hwf Hout. unfold sum_input_likelihoods in Hout.
  destruct (children_Done _ _ _ _ _ Hwf Hout) as (Hwf' & Hs0 & Hs1 & _).
  split_and!; try done. intros p Hshort.
  assert (∀ m, cell out p m = cell res p m) as Hcell.
  { intros m. eapply children_frame; [done|exact Hout|].
    intros c index _ Hi. apply Hshort. by eapply list_elem_of_lookup_2. }
  unfold cell, shape0 in *.
  destruct (rows out !! p) as [r|] eqn:Hr, (rows res !! p) as [r'|] eqn:Hr'.
  - f_equal. apply list_eq. intros m. apply Hcell.
  - apply lookup_lt_Some in Hr. apply lookup_ge_None in Hr'. lia.
  - apply lookup_lt_Some in Hr'. apply lookup_ge_None in Hr. lia.
  - done.
Qed.

Lemma sum_input_likelihoods_frame_witness :
  wf narrow_buffer ∧
  sum_input_likelihoods [[0%Z]] narrow_buffer [plhs_A; plhs_B]
  = Done (Arr2 1 [[Fin 1]; [NaN]]) ∧
  wf (Arr2 1 [[Fin 1]; [NaN]]) ∧
  shape0 (Arr2 1 [[Fin 1]; [NaN]]) = shape0 narrow_buffer ∧
  shape1 (Arr2 1 [[Fin 1]; [NaN]]) = shape1 narrow_buffer ∧
  ∀ p, (∀ index, index ∈ [[0%Z]] → length index ≤ p) →
       rows (Arr2 1 [[Fin 1]; [NaN]]) !! p = rows narrow_buffer !! p.
Proof.
  assert (wf narrow_buffer) as Hwf by (repeat constructor).
  split; [exact Hwf|]. split; [reflexivity|].
  apply (sum_input_likelihoods_frame [[0%Z]] narrow_buffer [plhs_A; plhs_B]
           (Arr2 1 [[Fin 1]; [NaN]]) Hwf).
  reflexivity.
Defined.

Lemma fprod_app l1 l2 : fprod (l1 ++ l2) = fmul (fprod l1) (fprod l2).
Proof.
  unfold fprod. induction l1 as [|a l1 IH]; cbn [foldr app].
  - by rewrite fmul_1_l.
  - by rewrite IH, fmul_assoc.
Qed.

Lemma child_value_identity P M p m :
  p < P →
  child_value (identity_map P) M p m = getitem2 M (Z.of_nat p) (Z.of_nat m).
Proof.
  intros Hp. unfold child_value, identity_map.
  by rewrite getitem_nat, list_lookup_fmap, lookup_seq_lt.
Qed.

Lemma valid_child_identity res M :
  wf M → shape0 M = shape0 res → shape1 M = shape1 res →
  valid_child res (identity_map (shape0 res)) M.
Proof.
  intros Hwf H0 H1. unfold valid_child, identity_map.
  split_and!; try done.
  - by rewrite length_fmap, length_seq.
  - apply Forall_fmap, Forall_forall. intros i Hi%elem_of_seq. simpl. lia.
Qed.

Lemma consistent_same_shape ci res res' lks :
  consistent ci res lks → wf res' →
  shape0 res' = shape0 res → shape1 res' = shape1 res →
  consistent ci res' lks.
Proof.
  intros [_ Hall] Hwf H0 H1. split; [done|].
  eapply Forall2_impl; [exact Hall|].
  intros index plhs (? & ? & ? & ?). unfold valid_child. split_and!; try done; congruence.
Qed.

Lemma consistent_app ci1 lks1 ci2 lks2 res :
  consistent ci1 res lks1 → consistent ci2 res lks2 →
  consistent (ci1 ++ ci2) res (lks1 ++ lks2).
Proof. intros [Hwf H1] [_ H2]. split; [done|]. by apply Forall2_app. Qed.

Lemma child_value_cell index plhs p m v :
  child_value index plhs p m = Ok v → ∃ q, cell plhs q m = Some v.
Proof.
  unfold child_value. destruct (getitem index (Z.of_nat p)) as [cc|]; [|done].
  unfold getitem2. destruct (axis_index (shape0 plhs) cc) as [q|]; [|done].
  rewrite axis_index_nat. case_decide; [|done].
  destruct (cell plhs q m) as [x|] eqn:Hx; [|done].
  intros [= <-]. eauto.
Qed.

Lemma all_cells_cell P M q m v : all_cells P M → cell M q m = Some v → P v.
Proof.
  unfold all_cells, cell. intros Hall.
  destruct (rows M !! q) as [r|] eqn:Hr; [|done]. intros Hv.
  pose proof (proj1 (Forall_lookup _ _) Hall q r Hr) as Hrow.
  by apply (proj1 (Forall_lookup _ _) Hrow m v).
Qed.

(** What holds of every entry of every matrix holds of every value the
    children contribute. *)
Lemma child_values_all_cells P ci lks p m vals :
  Forall (all_cells P) lks → child_values ci lks p m vals → Forall P vals.
Proof.
  intros Hall Hvals. apply Forall_lookup. intros i v Hv.
  destruct (Forall2_lookup_r _ _ _ _ _ Hvals Hv) as ([index plhs] & Hz & Hcv).
  apply lookup_zip_with_Some in Hz as (? & ? & [= <- <-] & _ & Hl).
  destruct (child_value_cell _ _ _ _ _ Hcv) as [q Hq].
  eapply all_cells_cell; [|exact Hq].
  by apply (proj1 (Forall_lookup _ _) Hall i).
Qed.

Lemma fprod_probability l : Forall is_probability l → is_probability (fprod l).
Proof.
  unfold fprod. induction 1 as [|v l (x & -> & Hx) _ (y & IH & Hy)]; cbn [foldr].
  - exists 1%R. split; [done|lra].
  - rewrite IH. exists (x * y)%R. split; [done|nra].
Qed.

Lemma fprod_cons v l : fprod (v :: l) = fmul v (fprod l).
Proof. reflexivity. Qed.

Lemma child_values_app ci1 lks1 ci2 lks2 p m vals :
  length ci1 = length lks1 →
  child_values (ci1 ++ ci2) (lks1 ++ lks2) p m vals →
  vals = (child_value_or_nan p m <$> zip ci1 lks1)
         ++ (child_value_or_nan p m <$> zip ci2 lks2).
Proof.
  intros Hlen Hvals. rewrite (child_values_fmap _ _ _ _ _ Hvals).
  by rewrite zip_with_app, fmap_app.
Qed.

(** X4. A child whose matrix holds only ones (a fully unknown taxon) is
    neutral: the call returns what it returns without that child. *)
Theorem sum_input_likelihoods_all_ones_child ci1 index ci2 lks1 plhs lks2 res :
  length ci1 = length lks1 → ci1 ++ ci2 ≠ [] →
  consistent (ci1 ++ index :: ci2) res (lks1 ++ plhs :: lks2) →
  all_cells (λ v, v = Fin 1) plhs →
  ∃ out,
    sum_input_likelihoods (ci1 ++ index :: ci2) res (lks1 ++ plhs :: lks2) = Done out ∧
    sum_input_likelihoods (ci1 ++ ci2) res (lks1 ++ lks2) = Done out.
Proof.
  intros Hlen Hne Hcons Hones. pose proof Hcons as [Hwf Hall].
  apply Forall2_app_inv in Hall as [Hall1 Hall2]; [|done].
  inversion Hall2 as [|? ? ? ? Hchild Hall2']; subst.
  assert (consistent (ci1 ++ ci2) res (lks1 ++ lks2)) as Hcons'.
  { split; [done|]. by apply Forall2_app. }
  assert (ci1 ++ index :: ci2 ≠ []) as Hne0 by (by destruct ci1).
  destruct (combiner_product _ _ _ Hne0 Hcons)
    as (out & Hout & Hwfo & Hs0 & Hs1 & Hcells).
  destruct (combiner_product _ _ _ Hne Hcons')
    as (out' & Hout' & Hwfo' & Hs0' & Hs1' & Hcells').
  exists out. split; [done|]. rewrite Hout'. f_equal.
  apply ndarray2_ext; [done|done|lia|lia|].
  intros p m Hp Hm.
  destruct (Hcells p m ltac:(lia) ltac:(lia)) as (vals & Hvals & Hget).
  destruct (Hcells' p m ltac:(lia) ltac:(lia)) as (vals' & Hvals' & Hget').
  rewrite (getitem2_Ok_cell _ _ _ _ Hget), (getitem2_Ok_cell _ _ _ _ Hget').
  apply (f_equal Some).
  rewrite (child_values_app _ _ _ _ _ _ _ Hlen Hvals).
  rewrite (child_values_app _ _ _ _ _ _ _ Hlen Hvals').
  rewrite !fprod_app. f_equal.
  assert (child_value_or_nan p m (index, plhs) = Fin 1) as Hone.
  { destruct (valid_child_value _ _ _ p m Hchild ltac:(lia) ltac:(lia)) as [v Hv].
    unfold child_value_or_nan. cbn [fst snd]. rewrite Hv.
    destruct (child_value_cell _ _ _ _ _ Hv) as [q Hq].
    apply (all_cells_cell _ _ _ _ _ Hones Hq). }
  change (zip (index :: ci2) (plhs :: lks2)) with ((index, plhs) :: zip ci2 lks2).
  by rewrite fmap_cons, fprod_cons, Hone, fmul_1_l.
Qed.

Lemma sum_input_likelihoods_all_ones_child_witness :
  length [[0; 0]%Z] = length [plhs_A] ∧ [[0; 0]%Z] ++ [] ≠ [] ∧
  consistent ([[0; 0]%Z] ++ [0; 1]%Z :: []) stale_buffer
    ([plhs_A] ++ ones_buffer :: []) ∧
  all_cells (λ v, v = Fin 1) ones_buffer ∧
  ∃ out,
    sum_input_likelihoods ([[0; 0]%Z] ++ [0; 1]%Z :: []) stale_buffer
      ([plhs_A] ++ ones_buffer :: []) = Done out ∧
    sum_input_likelihoods ([[0; 0]%Z] ++ []) stale_buffer ([plhs_A] ++ []) = Done out.
Proof.
  assert (consistent ([[0; 0]%Z] ++ [0; 1]%Z :: []) stale_buffer
            ([plhs_A] ++ ones_buffer :: [])) as Hcons.
  { split; [repeat constructor|]. repeat constructor; simpl; lia. }
  assert (all_cells (λ v, v = Fin 1) ones_buffer) as Hones by (repeat constructor).
  split; [reflexivity|]. split; [discriminate|]. split; [exact Hcons|].
  split; [exact Hones|].
  apply (sum_input_likelihoods_all_ones_child [[0; 0]%Z] [0; 1]%Z [] [plhs_A]
           ones_buffer [] stale_buffer);
    [reflexivity|discriminate|exact Hcons|exact Hones].
Defined.

(** X5. Probabilities stay probabilities: when every entry of every child
    matrix is a finite value between zero and one, so is every entry of the
    returned buffer. *)
Theorem sum_input_likelihoods_probabilities ci res lks :
  ci ≠ [] → consistent ci res lks → Forall (all_cells is_probability) lks →
  ∃ out, sum_input_likelihoods ci res lks = Done out ∧ all_cells is_probability out.
Proof.
  intros Hne Hcons Hprob.
  destruct (combiner_product _ _ _ Hne Hcons) as (out & Hout & Hwf & Hs0 & Hs1 & Hcells).
  exists out. split; [done|].
  apply Forall_lookup. intros p r Hr. apply Forall_lookup. intros m v Hv.
  assert (cell out p m = Some v) as Hcell by (unfold cell; by rewrite Hr).
  destruct (cell_Some_lt _ _ _ _ Hwf Hcell) as [Hp Hm].
  destruct (Hcells p m ltac:(lia) ltac:(lia)) as (vals & Hvals & Hget).
  apply getitem2_Ok_cell in Hget.
  assert (v = fprod vals) as -> by congruence.
  apply fprod_probability. by eapply child_values_all_cells.
Qed.

Lemma sum_input_likelihoods_probabilities_witness :
  [[0; 0]; [1; 0]]%Z ≠ [] ∧
  consistent [[0; 0]; [1; 0]]%Z stale_buffer [plhs_A; plhs_B] ∧
  Forall (all_cells is_probability) [plhs_A; plhs_B] ∧
  ∃ out, sum_input_likelihoods [[0; 0]; [1; 0]]%Z stale_buffer [plhs_A; plhs_B]
         = Done out ∧ all_cells is_probability out.
Proof.
  assert (consistent [[0; 0]; [1; 0]]%Z stale_buffer [plhs_A; plhs_B]) as Hcons.
  { apply example_consistent; [repeat constructor|reflexivity..]. }
  assert (Forall (all_cells is_probability) [plhs_A; plhs_B]) as Hprob.
  { repeat constructor; eexists; (split; [reflexivity|lra]). }
  split; [discriminate|]. split; [exact Hcons|]. split; [exact Hprob|].
  apply (sum_input_likelihoods_probabilities [[0; 0]; [1; 0]]%Z stale_buffer
           [plhs_A; plhs_B]); [discriminate|exact Hcons|exact Hprob].
Defined.

(** X7. Combining in two stages gives the same matrix as combining at once:
    when a group of children is first combined into a buffer and that buffer
    is then combined, through the identity map, with the remaining children,
    the result is that of one call on all the children. *)
Theorem sum_input_likelihoods_two_stage ci1 lks1 ci2 lks2 res res' T :
  ci1 ≠ [] → consistent ci1 res lks1 → consistent ci2 res lks2 →
  wf res' → shape0 res' = shape0 res → shape1 res' = shape1 res →
  sum_input_likelihoods ci1 res lks1 = Done T →
  ∃ out,
    sum_input_likelihoods (identity_map (shape0 res) :: ci2) res' (T :: lks2) = Done out ∧
    sum_input_likelihoods (ci1 ++ ci2) res' (lks1 ++ lks2) = Done out.
Proof.
  intros Hne Hcons1 Hcons2 Hwf' H0 H1 HT.
  destruct (combiner_product _ _ _ Hne Hcons1)
    as (T' & HT' & HwfT & HT0 & HT1 & HTcells).
  assert (T' = T) as -> by congruence.
  pose proof (consistent_same_shape _ _ _ _ Hcons1 Hwf' H0 H1) as Hc1.
  pose proof (consistent_same_shape _ _ _ _ Hcons2 Hwf' H0 H1) as Hc2.
  assert (consistent (identity_map (shape0 res) :: ci2) res' (T :: lks2)) as Hstage.
  { destruct Hc2 as [_ Hall2]. split; [done|]. constructor; [|done].
    rewrite <- H0. apply valid_child_identity; [done|lia|lia]. }
  pose proof (consistent_app _ _ _ _ _ Hc1 Hc2) as Hflat.
  assert (identity_map (shape0 res) :: ci2 ≠ []) as Hne0 by discriminate.
  destruct (combiner_product _ _ _ Hne0 Hstage)
    as (out & Hout & Hwfo & Hs0 & Hs1 & Hcells).
  assert (ci1 ++ ci2 ≠ []) as Hne' by (by destruct ci1).
  destruct (combiner_product _ _ _ Hne' Hflat)
    as (out' & Hout' & Hwfo' & Hs0' & Hs1' & Hcells').
  exists out. split; [done|]. rewrite Hout'. f_equal.
  apply ndarray2_ext; [done|done|lia|lia|].
  intros p m Hp Hm.
  destruct (Hcells p m ltac:(lia) ltac:(lia)) as (vals & Hvals & Hget).
  destruct (Hcells' p m ltac:(lia) ltac:(lia)) as (vals' & Hvals' & Hget').
  destruct (HTcells p m ltac:(lia) ltac:(lia)) as (vals1 & Hvals1 & HgetT).
  rewrite (getitem2_Ok_cell _ _ _ _ Hget), (getitem2_Ok_cell _ _ _ _ Hget').
  apply (f_equal Some).
  rewrite (child_values_app _ _ _ _ _ _ _ (consistent_length _ _ _ Hcons1) Hvals').
  rewrite (child_values_fmap _ _ _ _ _ Hvals).
  change (zip (identity_map (shape0 res) :: ci2) (T :: lks2))
    with ((identity_map (shape0 res), T) :: zip ci2 lks2).
  rewrite fmap_cons, fprod_cons, fprod_app. f_equal.
  rewrite <- (child_values_fmap _ _ _ _ _ Hvals1).
  unfold child_value_or_nan. cbn [fst snd].
  rewrite child_value_identity by lia. by rewrite HgetT.
Qed.

Lemma sum_input_likelihoods_two_stage_witness :
  consistent [[0; 0]; [1; 0]]%Z stale_buffer [plhs_A; plhs_B] ∧
  consistent [[0; 1]%Z] stale_buffer [plhs_B] ∧
  sum_input_likelihoods [[0; 0]; [1; 0]]%Z stale_buffer [plhs_A; plhs_B]
  = Done (Arr2 2 [[Fin (1 * 1); Fin (0 * 0)]; [Fin (1 * 0); Fin (0 * 1)]]) ∧
  ∃ out,
    sum_input_likelihoods (identity_map 2 :: [[0; 1]%Z]) ones_buffer
      (Arr2 2 [[Fin (1 * 1); Fin (0 * 0)]; [Fin (1 * 0); Fin (0 * 1)]] :: [plhs_B])
    = Done out ∧
    sum_input_likelihoods ([[0; 0]; [1; 0]]%Z ++ [[0; 1]%Z]) ones_buffer
      ([plhs_A; plhs_B] ++ [plhs_B]) = Done out.
Proof.
  assert (consistent [[0; 0]; [1; 0]]%Z stale_buffer [plhs_A; plhs_B]) as Hc1.
  { apply example_consistent; [repeat constructor|reflexivity..]. }
  assert (consistent [[0; 1]%Z] stale_buffer [plhs_B]) as Hc2.
  { split; [repeat constructor|]. repeat constructor; simpl; lia. }
  split; [exact Hc1|]. split; [exact Hc2|]. split; [reflexivity|].
  apply (sum_input_likelihoods_two_stage [[0; 0]; [1; 0]]%Z [plhs_A; plhs_B]
           [[0; 1]%Z] [plhs_B] stale_buffer ones_buffer
           (Arr2 2 [[Fin (1 * 1); Fin (0 * 0)]; [Fin (1 * 0); Fin (0 * 1)]]));
    [discriminate|exact Hc1|exact Hc2|repeat constructor|reflexivity|reflexivity
    |reflexivity].
Defined.

(** X8. Running the call again on the buffer it returned changes nothing:
    when the first map has one entry per row, a second call with the same
    maps and matrices returns the same buffer. *)
Theorem sum_input_likelihoods_rerun ci res lks index out :
  wf res → ci !! 0 = Some index → length index = shape0 res →
  sum_input_likelihoods ci res lks = Done out →
  sum_input_likelihoods ci out lks = Done out.
Proof.
  intros Hwf Hi Hlen Hout.
  assert (ci ≠ []) as Hne by (by destruct ci).
  pose proof Hout as Hrun. unfold sum_input_likelihoods in Hrun.
  destruct (children_Done _ _ _ _ _ Hwf Hrun) as (Hwfo & Hs0 & Hs1 & _).
  rewrite sum_input_likelihoods_first in Hout |- * by done.
  apply and_then_Done in Hout as (b & Hb & Hrest).
  rewrite (first_pass_overwrites ci lks res out index b); try done; lia.
Qed.

Lemma sum_input_likelihoods_rerun_witness :
  wf stale_buffer ∧
  sum_input_likelihoods [[0; 0]; [1; 0]]%Z stale_buffer [plhs_A; plhs_B]
  = Done (Arr2 2 [[Fin (1 * 1); Fin (0 * 0)]; [Fin (1 * 0); Fin (0 * 1)]]) ∧
  sum_input_likelihoods [[0; 0]; [1; 0]]%Z
    (Arr2 2 [[Fin (1 * 1); Fin (0 * 0)]; [Fin (1 * 0); Fin (0 * 1)]])
    [plhs_A; plhs_B]
  = Done (Arr2 2 [[Fin (1 * 1); Fin (0 * 0)]; [Fin (1 * 0); Fin (0 * 1)]]).
Proof.
  assert (wf stale_buffer) as Hwf by (repeat constructor).
  split; [exact Hwf|]. split; [reflexivity|].
  apply (sum_input_likelihoods_rerun [[0; 0]; [1; 0]]%Z stale_buffer
           [plhs_A; plhs_B] [0; 0]%Z _ Hwf); reflexivity.
Defined.

(** * Further properties of the root aggregator *)

Lemma dot_reals (a b : list R) : dot (Fin <$> a) (Fin <$> b) = Fin (rdot a b).
Proof.
  unfold dot, fsum. revert b. induction a as [|x a IH]; intros [|y b]; try done.
  cbn [fmap list_fmap zip_with foldr rdot].
  change (list_fmap R float64 Fin a) with (Fin <$> a).
  change (list_fmap R float64 Fin b) with (Fin <$> b).
  by rewrite IH.
Qed.

Lemma step1_reals (a ms : list R) :
  length ms ≤ length a →
  get_total_log_likelihood_step1 (Fin <$> a) (Fin <$> ms) = Ok (Fin (rdot a ms)).
Proof.
  intros Hlen. rewrite step1_dot by (rewrite !length_fmap; lia).
  by rewrite dot_reals.
Qed.

Lemma rdot_one_hot ms j s :
  rdot ((λ i, if decide (i = j) then 1%R else 0%R) <$> seq s (length ms)) ms
  = match (if decide (s ≤ j) then ms !! (j - s) else None) with
    | Some x => x
    | None => 0%R
    end.
Proof.
  revert s. induction ms as [|y ms IH]; intros s.
  - simpl. by case_decide.
  - cbn [length seq fmap list_fmap rdot].
    change (list_fmap nat R ?f ?l) with (f <$> l). rewrite IH.
    destruct (decide (s = j)) as [->|Hne].
    + rewrite decide_False by lia. rewrite decide_True by lia.
      rewrite Nat.sub_diag. simpl. lra.
    + destruct (decide (s ≤ j)) as [Hle|Hgt].
      * rewrite decide_True by lia.
        replace (j - s) with (S (j - S s)) by lia. simpl.
        destruct (ms !! (j - S s)); lra.
      * rewrite decide_False by lia. lra.
Qed.

(** X10. For the one-hot row of an unambiguous motif [j] the total is the
    probability of that motif. *)
Theorem get_total_log_likelihood_step1_one_hot (ms : list R) j x :
  ms !! j = Some x →
  get_total_log_likelihood_step1 (Fin <$> one_hot (length ms) j) (Fin <$> ms)
  = Ok (Fin x).
Proof.
  intros Hj. rewrite step1_reals by (unfold one_hot; by rewrite length_fmap, length_seq).
  unfold one_hot. rewrite rdot_one_hot, decide_True by lia.
  by rewrite Nat.sub_0_r, Hj.
Qed.

Lemma get_total_log_likelihood_step1_one_hot_witness :
  [(1 / 4)%R; (3 / 4)%R] !! 1 = Some (3 / 4)%R ∧
  get_total_log_likelihood_step1 (Fin <$> one_hot 2 1) (Fin <$> [(1 / 4)%R; (3 / 4)%R])
  = Ok (Fin (3 / 4)).
Proof.
  split; [reflexivity|].
  apply (get_total_log_likelihood_step1_one_hot [(1 / 4)%R; (3 / 4)%R] 1 (3 / 4)%R).
  reflexivity.
Defined.

(** * Further properties of the log aggregator *)

Lemma fsum_Permutation l1 l2 : Permutation l1 l2 → fsum l1 = fsum l2.
Proof.
  unfold fsum. induction 1 as [|x l1 l2 _ IH|x y l|l1 l2 l3 _ IH1 _ IH2];
    cbn [foldr].
  - done.
  - by rewrite IH.
  - by rewrite !fadd_assoc, (fadd_comm y x).
  - congruence.
Qed.

Lemma fadd_nan_r a : fadd a NaN = NaN.
Proof. by destruct a. Qed.

Lemma fsum_nan l : NaN ∈ l → fsum l = NaN.
Proof.
  unfold fsum. induction l as [|x l IH]; [by intros ?%not_elem_of_nil|].
  intros [<-|Hin]%elem_of_cons; cbn [foldr]; [done|].
  by rewrite (IH Hin), fadd_nan_r.
Qed.

Lemma log_term_lookup lhs counts p l c :
  lhs !! p = Some l → counts !! p = Some c →
  zip_with fmul (flog <$> lhs) counts !! p = Some (fmul (flog l) c).
Proof.
  intros Hl Hc. by rewrite lookup_zip_with, list_lookup_fmap, Hl, Hc.
Qed.

(** X14. A negative total is not rejected either: its logarithm is [nan],
    and the returned value is [nan] whatever the other patterns are. *)
Theorem get_log_sum_across_sites_negative_total lhs counts p x c :
  length counts ≤ length lhs →
  lhs !! p = Some (Fin x) → (x < 0)%R → counts !! p = Some c →
  get_log_sum_across_sites lhs counts = Ok NaN.
Proof.
  intros Hlen Hx Hneg Hc. rewrite log_sum_terms by done. f_equal.
  apply fsum_nan, list_elem_of_lookup. exists p.
  rewrite (log_term_lookup _ _ _ _ _ Hx Hc). f_equal.
  unfold flog. by destruct (total_order_T 0 x) as [[?|?]|?]; [lra|lra|].
Qed.

Lemma get_log_sum_across_sites_negative_total_witness :
  length [Fin 3; Fin 10] ≤ length [Fin (1 / 2); Fin (-1)] ∧
  [Fin (1 / 2); Fin (-1)] !! 1 = Some (Fin (-1)) ∧ (-1 < 0)%R ∧
  [Fin 3; Fin 10] !! 1 = Some (Fin 10) ∧
  get_log_sum_across_sites [Fin (1 / 2); Fin (-1)] [Fin 3; Fin 10] = Ok NaN.
Proof.
  split; [simpl; lia|]. split; [reflexivity|]. split; [lra|]. split; [reflexivity|].
  apply (get_log_sum_across_sites_negative_total [Fin (1 / 2); Fin (-1)]
           [Fin 3; Fin 10] 1 (-1)%R (Fin 10));
    [simpl; lia|reflexivity|lra|reflexivity].
Defined.

(** X15. A pattern whose total and count are both zero does not drop out of
    the sum: its term is [-inf * 0], which is [nan], and so is the returned
    value. *)
Theorem get_log_sum_across_sites_zero_count lhs counts p :
  length counts ≤ length lhs →
  lhs !! p = Some (Fin 0) → counts !! p = Some (Fin 0) →
  get_log_sum_across_sites lhs counts = Ok NaN.
Proof.
  intros Hlen Hx Hc. rewrite log_sum_terms by done. f_equal.
  apply fsum_nan, list_elem_of_lookup. exists p.
  rewrite (log_term_lookup _ _ _ _ _ Hx Hc). f_equal.
  rewrite flog_zero. simpl. unfold inf_times.
  by destruct (total_order_T 0 0) as [[?|?]|?]; [lra| |lra].
Qed.

Lemma get_log_sum_across_sites_zero_count_witness :
  length [Fin 3; Fin 0] ≤ length [Fin (1 / 2); Fin 0] ∧
  [Fin (1 / 2); Fin 0] !! 1 = Some (Fin 0) ∧ [Fin 3; Fin 0] !! 1 = Some (Fin 0) ∧
  get_log_sum_across_sites [Fin (1 / 2); Fin 0] [Fin 3; Fin 0] = Ok NaN.
Proof.
  split; [simpl; lia|]. split; [reflexivity|]. split; [reflexivity|].
  apply (get_log_sum_across_sites_zero_count [Fin (1 / 2); Fin 0] [Fin 3; Fin 0] 1);
    [simpl; lia|reflexivity|reflexivity].
Defined.

(** X17. The order of the patterns does not matter: permuting the totals
    together with their counts leaves the returned value the same. *)
Theorem get_log_sum_across_sites_permutation lhs counts lhs' counts' :
  length lhs = length counts → length lhs' = length counts' →
  Permutation (zip lhs counts) (zip lhs' counts') →
  get_log_sum_across_sites lhs counts = get_log_sum_across_sites lhs' counts'.
Proof.
  intros Hlen Hlen' Hperm. rewrite !log_sum_terms by lia. f_equal.
  rewrite !zip_with_fmap_l.
  rewrite (zip_with_zip _ lhs counts), (zip_with_zip _ lhs' counts').
  apply fsum_Permutation. by apply fmap_Permutation.
Qed.

Lemma get_log_sum_across_sites_permutation_witness :
  length [Fin (1 / 2); Fin 2] = length [Fin 10; Fin 3] ∧
  length [Fin 2; Fin (1 / 2)] = length [Fin 3; Fin 10] ∧
  get_log_sum_across_sites [Fin (1 / 2); Fin 2] [Fin 10; Fin 3]
  = get_log_sum_across_sites [Fin 2; Fin (1 / 2)] [Fin 3; Fin 10].
Proof.
  split; [reflexivity|]. split; [reflexivity|].
  apply (get_log_sum_across_sites_permutation [Fin (1 / 2); Fin 2] [Fin 10; Fin 3]
           [Fin 2; Fin (1 / 2)] [Fin 3; Fin 10]);
    [reflexivity|reflexivity|apply perm_swap].
Defined.

(** * The kernels in machine arithmetic *)

(** The exact kernels are the machine kernels at the exact operations. *)
Lemma machine_exact_combiner ci res lks :
  Machine.sum_input_likelihoods fmul ci res lks = sum_input_likelihoods ci res lks.
Proof. reflexivity. Qed.

Lemma machine_exact_step1 a b :
  Machine.get_total_log_likelihood_step1 fmul fadd a b
  = get_total_log_likelihood_step1 a b.
Proof. reflexivity. Qed.

Lemma machine_exact_log_sum lhs counts :
  Machine.get_log_sum_across_sites fmul fadd flog lhs counts
  = get_log_sum_across_sites lhs counts.
Proof. reflexivity. Qed.

Section MachineCombiner.
Variable mul : float64 → float64 → float64.

Lemma machine_multiply_cell_statement :
  cell_statement mul (Machine.multiply_cell mul).
Proof.
  split.
  - intros M cc p m b b' Hwf. unfold Machine.multiply_cell. rewrite getitem2_nat.
    case_decide as Hpm; [|done].
    destruct (cell b p m) as [old|] eqn:Hold; [|done].
    destruct (getitem2 M cc (Z.of_nat m)) as [x|] eqn:Hx; [|done].
    intros (Hp & Hm & H0 & H1 & Hwf' & Hc & Hfr)%setitem2_Done.
    split_and!; eauto.
  - intros M cc p m b x Hwf Hp Hm Hx. unfold Machine.multiply_cell.
    rewrite getitem2_nat, decide_True by done.
    destruct (cell_is_Some b p m Hwf Hp Hm) as [old ->]. rewrite Hx.
    by apply setitem2_ok.
Qed.

Lemma machine_child_step_eq ci lks child b :
  Machine.child_step mul ci lks child b =
  match ci !! child, lks !! child with
  | Some index, Some plhs =>
      child_pass (if decide (child = 0) then assign_cell
                  else Machine.multiply_cell mul)
        index plhs (length index) (shape1 b) b
  | _, _ => Raised b
  end.
Proof.
  unfold Machine.child_step. rewrite !getitem_nat.
  destruct (ci !! child); [|done]. destruct (lks !! child); [|done].
  by case_decide.
Qed.

Lemma machine_combine_statement child :
  cell_statement (Machine.combine mul child)
    (if decide (child = 0) then assign_cell else Machine.multiply_cell mul).
Proof.
  unfold Machine.combine. case_decide;
    [apply assign_cell_statement|apply machine_multiply_cell_statement].
Qed.

Lemma machine_child_step_Done ci lks child b b' :
  wf b → Machine.child_step mul ci lks child b = Done b' →
  wf b' ∧ shape0 b' = shape0 b ∧ shape1 b' = shape1 b ∧
  ∃ index plhs, ci !! child = Some index ∧ lks !! child = Some plhs ∧
    (∀ p m, p < length index → m < shape1 b →
       p < shape0 b ∧
       ∃ x old, child_value index plhs p m = Ok x ∧ cell b p m = Some old ∧
                cell b' p m = Some (Machine.combine mul child old x)) ∧
    (∀ p m, ¬ (p < length index ∧ m < shape1 b) → cell b' p m = cell b p m).
Proof.
  intros Hwf. rewrite machine_child_step_eq.
  destruct (ci !! child) as [index|]; [|done].
  destruct (lks !! child) as [plhs|]; [|done].
  intros Hpass.
  destruct (child_pass_Done _ _ (machine_combine_statement child) _ _ _ _ _ _ Hwf Hpass)
    as (Hwf' & Hs0 & Hs1 & _ & Hin & Hfr).
  split_and!; try done. exists index, plhs. split_and!; try done.
  intros p m Hp Hm. destruct (Hin p m Hp Hm) as (? & _ & ?). done.
Qed.

Lemma machine_child_step_ok ci lks res child b :
  wf b → shape0 b = shape0 res → shape1 b = shape1 res →
  accesses_in_range ci lks res child →
  ∃ b', Machine.child_step mul ci lks child b = Done b'.
Proof.
  intros Hwf Hs0 Hs1 (index & plhs & Hi & Hl & Hin).
  rewrite machine_child_step_eq, Hi, Hl.
  apply (child_pass_ok _ _ (machine_combine_statement child)); [done|..].
  - intros p Hp. by apply lookup_lt_is_Some_2.
  - intros p m Hp Hm. rewrite Hs1 in Hm. destruct (Hin p m Hp Hm) as [? ?].
    split_and!; [congruence|lia|done].
Qed.

Lemma machine_children_Done ci lks res k b :
  wf res → for_range k (Machine.child_step mul ci lks) res = Done b →
  wf b ∧ shape0 b = shape0 res ∧ shape1 b = shape1 res.
Proof.
  intros Hwf. revert b. induction k as [|k IH]; intros b.
  - by intros [= <-].
  - rewrite for_range_S. intros (b1 & H1 & Hst)%and_then_Done.
    destruct (IH b1 H1) as (Hwf1 & Hs0 & Hs1).
    destruct (machine_child_step_Done _ _ _ _ _ Hwf1 Hst) as (Hwf' & Hs0' & Hs1' & _).
    split_and!; congruence.
Qed.

Lemma machine_children_ok ci lks res k :
  wf res → (∀ child, child < k → accesses_in_range ci lks res child) →
  ∃ b, for_range k (Machine.child_step mul ci lks) res = Done b.
Proof.
  intros Hwf. induction k as [|k IH]; intros Hacc.
  - by exists res.
  - destruct IH as [b1 H1]; [intros; apply Hacc; lia|].
    rewrite for_range_S, H1. simpl.
    destruct (machine_children_Done _ _ _ _ _ Hwf H1) as (Hwf1 & Hs0 & Hs1).
    eapply machine_child_step_ok; eauto.
Qed.

(** Cells of rows that no processed map reaches keep their content. *)
Lemma machine_children_frame ci lks res k b p m :
  wf res → for_range k (Machine.child_step mul ci lks) res = Done b →
  (∀ c index, c < k → ci !! c = Some index → length index ≤ p) →
  cell b p m = cell res p m.
Proof.
  intros Hwf. revert b. induction k as [|k IH]; intros b.
  - by intros [= <-].
  - rewrite for_range_S. intros (b1 & H1 & Hst)%and_then_Done Hshort.
    destruct (machine_children_Done _ _ _ _ _ Hwf H1) as (Hwf1 & _).
    destruct (machine_child_step_Done _ _ _ _ _ Hwf1 Hst)
      as (_ & _ & _ & index & plhs & Hi & _ & _ & Hfr).
    rewrite Hfr.
    + apply IH; [done|]. intros c index' Hc. apply Hshort. lia.
    + intros [Hp _]. pose proof (Hshort k index ltac:(lia) Hi). lia.
Qed.

(** After the first [k >= 1] children a cell holds the first child's value
    multiplied, in turn, by the values of the children after it. *)
Lemma machine_children_cells ci res lks k b :
  consistent ci res lks → k ≤ length ci →
  for_range k (Machine.child_step mul ci lks) res = Done b →
  ∀ p m, p < shape0 res → m < shape1 res →
    0 < k →
    ∃ v vs, length (v :: vs) = k ∧
      (∀ c index plhs, c < k → ci !! c = Some index → lks !! c = Some plhs →
         ∃ x, (v :: vs) !! c = Some x ∧ child_value index plhs p m = Ok x) ∧
      cell b p m = Some (product_in_order mul v vs).
Proof.
  intros Hcons. pose proof Hcons as [Hwf Hall]. revert b.
  induction k as [|k IH]; intros b Hk Hrun p m Hp Hm Hpos; [lia|].
  rewrite for_range_S in Hrun. apply and_then_Done in Hrun as (b1 & H1 & Hst).
  destruct (machine_children_Done _ _ _ _ _ Hwf H1) as (Hwf1 & Hs0 & Hs1).
  destruct (machine_child_step_Done _ _ _ _ _ Hwf1 Hst)
    as (_ & _ & _ & index & plhs & Hi & Hl & Hin & _).
  pose proof (Forall2_lookup_lr _ _ _ _ _ _ Hall Hi Hl) as (Hlen & _).
  destruct (Hin p m ltac:(lia) ltac:(lia)) as (_ & x & old & Hx & Hold & Hnew).
  destruct (decide (k = 0)) as [->|Hk0].
  - exists x, []. split_and!; [done| |].
    + intros c index' plhs' Hc Hi' Hl'. assert (c = 0) as -> by lia.
      exists x. split; [done|congruence].
    + rewrite Hnew. unfold Machine.combine. by rewrite decide_True.
  - destruct (IH b1 ltac:(lia) H1 p m Hp Hm ltac:(lia)) as (v & vs & Hlv & Hvals & Hcell).
    exists v, (vs ++ [x]). split_and!.
    + simpl in *. rewrite length_app. simpl. lia.
    + intros c index' plhs' Hc Hi' Hl'. destruct (decide (c = k)) as [->|Hne].
      * exists x. split; [|congruence].
        change (v :: vs ++ [x]) with ((v :: vs) ++ [x]).
        rewrite lookup_app_r by lia. by rewrite Hlv, Nat.sub_diag.
      * destruct (Hvals c index' plhs' ltac:(lia) Hi' Hl') as (y & Hy & Hcy).
        exists y. split; [|done].
        change (v :: vs ++ [x]) with ((v :: vs) ++ [x]).
        by rewrite lookup_app_l by lia.
    + rewrite Hnew. unfold Machine.combine, product_in_order.
      rewrite decide_False by done. rewrite foldl_app. simpl.
      unfold product_in_order in Hcell. congruence.
Qed.

(** The returned buffer holds, in every cell, the product of the children's
    values taken in the order of the children. *)
Lemma machine_combiner_product ci res lks :
  ci ≠ [] → consistent ci res lks →
  ∃ out, Machine.sum_input_likelihoods mul ci res lks = Done out ∧
    wf out ∧ shape0 out = shape0 res ∧ shape1 out = shape1 res ∧
    ∀ p m, p < shape0 res → m < shape1 res →
      ∃ v vs, child_values ci lks p m (v :: vs) ∧
              getitem2 out (Z.of_nat p) (Z.of_nat m)
              = Ok (product_in_order mul v vs).
Proof.
  intros Hne Hcons. pose proof Hcons as [Hwf Hall].
  assert (0 < length ci) as Hc by (destruct ci; [done|simpl; lia]).
  unfold Machine.sum_input_likelihoods.
  destruct (machine_children_ok ci lks res (length ci) Hwf) as [out Hout].
  { intros. by apply consistent_in_range. }
  destruct (machine_children_Done _ _ _ _ _ Hwf Hout) as (Hwf' & Hs0 & Hs1).
  exists out. split_and!; try done.
  intros p m Hp Hm.
  destruct (machine_children_cells _ _ _ _ _ Hcons (le_n _) Hout p m Hp Hm Hc)
    as (v & vs & Hlv & Hpt & Hcell).
  exists v, vs. split.
  - apply child_values_intro; [by eapply consistent_length|done|done].
  - apply getitem2_cell; [lia|lia|done].
Qed.

(** The first child is stored by plain assignment: after its pass a cell
    holds the child's value, whatever the buffer held before. *)
Lemma machine_first_child_assigns ci res lks p m vals :
  ci ≠ [] → consistent ci res lks → p < shape0 res → m < shape1 res →
  child_values ci lks p m vals →
  ∃ b v, Machine.child_step mul ci lks 0 res = Done b ∧ vals !! 0 = Some v ∧
         getitem2 b (Z.of_nat p) (Z.of_nat m) = Ok v.
Proof.
  intros Hne Hcons Hp Hm Hvals. pose proof Hcons as [Hwf Hall].
  assert (0 < length ci) as Hc by (destruct ci; [done|simpl; lia]).
  destruct (machine_child_step_ok ci lks res 0 res Hwf eq_refl eq_refl) as [b Hb].
  { by apply consistent_in_range. }
  destruct (machine_child_step_Done _ _ _ _ _ Hwf Hb)
    as (_ & Hs0 & Hs1 & index & plhs & Hi & Hl & Hin & _).
  pose proof (Forall2_lookup_lr _ _ _ _ _ _ Hall Hi Hl) as (Hlen & _).
  destruct (Hin p m ltac:(lia) Hm) as (_ & x & old & Hx & _ & Hnew).
  destruct (child_values_lookup _ _ _ _ _ _ _ _ Hvals Hi Hl) as (v & Hv & Hcv).
  exists b, v. split_and!; try done.
  apply getitem2_cell; [lia|lia|]. rewrite Hnew. unfold Machine.combine.
  rewrite decide_True by done. congruence.
Qed.

(** Every later child multiplies its value into the cell in place. *)
Lemma machine_later_child_multiplies ci res lks p m vals k b :
  consistent ci res lks → p < shape0 res → m < shape1 res →
  child_values ci lks p m vals →
  0 < k < length ci → wf b → shape0 b = shape0 res → shape1 b = shape1 res →
  ∃ b' v, Machine.child_step mul ci lks k b = Done b' ∧ vals !! k = Some v ∧
    ∀ old, getitem2 b (Z.of_nat p) (Z.of_nat m) = Ok old →
           getitem2 b' (Z.of_nat p) (Z.of_nat m) = Ok (mul old v).
Proof.
  intros Hcons Hp Hm Hvals Hk Hwf Hs0 Hs1. pose proof Hcons as [_ Hall].
  destruct (machine_child_step_ok ci lks res k b Hwf Hs0 Hs1) as [b' Hb'].
  { apply consistent_in_range; [done|lia]. }
  destruct (machine_child_step_Done _ _ _ _ _ Hwf Hb')
    as (_ & Hs0' & Hs1' & index & plhs & Hi & Hl & Hin & _).
  pose proof (Forall2_lookup_lr _ _ _ _ _ _ Hall Hi Hl) as (Hlen & _).
  destruct (Hin p m ltac:(lia) ltac:(lia)) as (_ & x & old & Hx & Hold & Hnew).
  destruct (child_values_lookup _ _ _ _ _ _ _ _ Hvals Hi Hl) as (v & Hv & Hcv).
  exists b', v. split_and!; try done.
  intros old' Hold'%getitem2_Ok_cell.
  apply getitem2_cell; [lia|lia|]. rewrite Hnew. unfold Machine.combine.
  rewrite decide_False by lia. congruence.
Qed.

End MachineCombiner.

Section MachineAggregators.
Variable mul add : float64 → float64 → float64.
Variable log : float64 → float64.

Lemma machine_accumulate_shift l term acc :
  Machine.accumulate add (S <$> l) term acc
  = Machine.accumulate add l (term ∘ S) acc.
Proof.
  revert acc. induction l as [|i l IH]; intros acc; simpl; [done|].
  destruct (term (S i)); [apply IH|done].
Qed.

Lemma machine_accumulate_ext l term term' acc :
  (∀ i, term i = term' i) →
  Machine.accumulate add l term acc = Machine.accumulate add l term' acc.
Proof.
  intros Heq. revert acc. induction l as [|i l IH]; intros acc; simpl; [done|].
  rewrite Heq. destruct (term' i); [apply IH|done].
Qed.

Lemma machine_product_at_cons x a y b i :
  Machine.product_at mul (x :: a) (y :: b) (S i) = Machine.product_at mul a b i.
Proof. unfold Machine.product_at. by rewrite !getitem_nat. Qed.

(** With enough entries in [a], the loop returns the running sum of the
    products [a[i] * b[i]] over the positions of [b]. *)
Lemma machine_accumulate_products a b acc :
  length b ≤ length a →
  Machine.accumulate add (seq 0 (length b)) (Machine.product_at mul a b) acc
  = Ok (foldl add acc (zip_with mul a b)).
Proof.
  revert a acc. induction b as [|y b IH]; intros a acc Hlen.
  - by destruct a.
  - destruct a as [|x a]; simpl in Hlen; [lia|].
    cbn [length seq Machine.accumulate]. unfold Machine.product_at at 1.
    rewrite !getitem_nat. cbn [lookup list_lookup zip_with foldl].
    rewrite <- fmap_S_seq, machine_accumulate_shift.
    rewrite <- (IH a (add acc (mul x y))) by lia.
    apply machine_accumulate_ext. intros i. apply machine_product_at_cons.
Qed.

Lemma machine_step1 input_likelihoods mprobs :
  length mprobs ≤ length input_likelihoods →
  Machine.get_total_log_likelihood_step1 mul add input_likelihoods mprobs
  = Ok (sum_in_order add (zip_with mul input_likelihoods mprobs)).
Proof.
  intros Hlen. unfold Machine.get_total_log_likelihood_step1, sum_in_order.
  by apply machine_accumulate_products.
Qed.

Lemma machine_log_sum lhs counts :
  length counts ≤ length lhs →
  Machine.get_log_sum_across_sites mul add log lhs counts
  = Ok (sum_in_order add (zip_with mul (log <$> lhs) counts)).
Proof.
  intros Hlen. unfold Machine.get_log_sum_across_sites, sum_in_order.
  apply machine_accumulate_products. by rewrite length_map.
Qed.

End MachineAggregators.

(** The exact operations and the overflowing ones follow the IEEE rules for
    the special values. *)
Lemma exact_special_values : special_values fmul fadd flog.
Proof.
  split.
  - apply flog_zero.
  - apply fmul_ninf_pos.
  - done.
  - apply fadd_nan_r.
  - by intros [x| | |].
  - by intros [x| | |].
  - done.
  - done.
Qed.

Lemma overflow_special_values :
  special_values mul_overflow add_overflow log_overflow.
Proof.
  unfold mul_overflow, add_overflow, log_overflow. split.
  - by rewrite flog_zero.
  - intros c Hc. by rewrite fmul_ninf_pos.
  - done.
  - intros a. by rewrite fadd_nan_r.
  - by intros [x| | |].
  - by intros [x| | |].
  - done.
  - done.
Qed.

(** * Properties in machine arithmetic: the node combiner *)

(** C1. For at least one child and consistent arguments (one matrix per
    map, every map as long as the buffer has rows, every map entry a row of
    its child's matrix, one common width) the call returns the buffer, and
    each cell [(p, m)] of it is the product over the children [c] of
    [likelihoods[c][child_indexes[c][p], m]], multiplied in the order of the
    children with the multiplication of the arithmetic at hand.  The first
    child's pass stores its value by assignment; the pass of every later
    child [k] multiplies the child's value into what the cell holds. *)
Theorem sum_input_likelihoods_product (mul : float64 → float64 → float64)
    ci res lks :
  ci ≠ [] → consistent ci res lks →
  ∃ out, Machine.sum_input_likelihoods mul ci res lks = Done out ∧
    shape0 out = shape0 res ∧ shape1 out = shape1 res ∧
    ∀ p m, p < shape0 res → m < shape1 res →
      ∃ v vs, child_values ci lks p m (v :: vs) ∧
        getitem2 out (Z.of_nat p) (Z.of_nat m) = Ok (product_in_order mul v vs) ∧
        (∃ b, Machine.child_step mul ci lks 0 res = Done b ∧
              getitem2 b (Z.of_nat p) (Z.of_nat m) = Ok v) ∧
        (∀ k b, 0 < k < length ci →
           wf b → shape0 b = shape0 res → shape1 b = shape1 res →
           ∃ b' x, Machine.child_step mul ci lks k b = Done b' ∧
             (v :: vs) !! k = Some x ∧
             ∀ old, getitem2 b (Z.of_nat p) (Z.of_nat m) = Ok old →
                    getitem2 b' (Z.of_nat p) (Z.of_nat m) = Ok (mul old x)).
Proof.
  intros Hne Hcons.
  destruct (machine_combiner_product mul ci res lks Hne Hcons)
    as (out & Hout & _ & Hs0 & Hs1 & Hcells).
  exists out. split_and!; try done.
  intros p m Hp Hm. destruct (Hcells p m Hp Hm) as (v & vs & Hvals & Hget).
  exists v, vs. split_and!; try done.
  - destruct (machine_first_child_assigns mul _ _ _ _ _ _ Hne Hcons Hp Hm Hvals)
      as (b & v' & Hb & [= <-] & Hv). eauto.
  - intros k b Hk Hwf Hb0 Hb1. by eapply machine_later_child_multiplies.
Qed.

Lemma sum_input_likelihoods_product_witness :
  [[0; 0]; [1; 0]]%Z ≠ [] ∧
  consistent [[0; 0]; [1; 0]]%Z stale_buffer [plhs_A; plhs_B] ∧
  ∃ out, Machine.sum_input_likelihoods mul_overflow [[0; 0]; [1; 0]]%Z stale_buffer
           [plhs_A; plhs_B] = Done out ∧
    shape0 out = 2 ∧ shape1 out = 2 ∧
    ∀ p m, p < 2 → m < 2 →
      ∃ v vs, child_values [[0; 0]; [1; 0]]%Z [plhs_A; plhs_B] p m (v :: vs) ∧
        getitem2 out (Z.of_nat p) (Z.of_nat m)
        = Ok (product_in_order mul_overflow v vs) ∧
        (∃ b, Machine.child_step mul_overflow [[0; 0]; [1; 0]]%Z [plhs_A; plhs_B]
                0 stale_buffer = Done b ∧
              getitem2 b (Z.of_nat p) (Z.of_nat m) = Ok v) ∧
        (∀ k b, 0 < k < 2 → wf b → shape0 b = 2 → shape1 b = 2 →
           ∃ b' x, Machine.child_step mul_overflow [[0; 0]; [1; 0]]%Z
                     [plhs_A; plhs_B] k b = Done b' ∧
             (v :: vs) !! k = Some x ∧
             ∀ old, getitem2 b (Z.of_nat p) (Z.of_nat m) = Ok old →
                    getitem2 b' (Z.of_nat p) (Z.of_nat m) = Ok (mul_overflow old x)).
Proof.
  assert (consistent [[0; 0]; [1; 0]]%Z stale_buffer [plhs_A; plhs_B]) as Hcons.
  { apply example_consistent; [repeat constructor|reflexivity..]. }
  split; [discriminate|]. split; [exact Hcons|].
  apply (sum_input_likelihoods_product mul_overflow [[0; 0]; [1; 0]]%Z stale_buffer
           [plhs_A; plhs_B]); [discriminate|exact Hcons].
Defined.

Lemma for_each_ext_in l body body' b :
  (∀ i b, i ∈ l → body i b = body' i b) →
  for_each l body b = for_each l body' b.
Proof.
  revert b. induction l as [|i l IH]; intros b Heq; simpl; [done|].
  rewrite (Heq i b) by apply list_elem_of_here.
  destruct (body' i b); simpl; [|done].
  apply IH. intros j b' Hj. apply Heq. by apply list_elem_of_further.
Qed.

(** C7, amended.  The function checks no shapes and raises nothing of its
    own.  Whenever every access it makes stays inside its array (at least as
    many matrices as maps, no map longer than the buffer has rows, every map
    entry a row of its child's matrix, no matrix narrower than the buffer)
    the call returns the buffer, also when the dimensions disagree: surplus
    matrices are not looked at, and the rows beyond the end of every map
    keep what they held. *)
Theorem sum_input_likelihoods_no_shape_check (mul : float64 → float64 → float64)
    ci res lks :
  wf res → length ci ≤ length lks →
  (∀ child index plhs, ci !! child = Some index → lks !! child = Some plhs →
     covers res index plhs) →
  ∃ out, Machine.sum_input_likelihoods mul ci res lks = Done out ∧
    shape0 out = shape0 res ∧ shape1 out = shape1 res ∧
    (∀ lks', Machine.sum_input_likelihoods mul ci res (lks ++ lks') = Done out) ∧
    ∀ p, (∀ index, index ∈ ci → length index ≤ p) → rows out !! p = rows res !! p.
Proof.
  intros Hwf Hlen Hcov.
  assert (∀ lks', ∀ child, child < length ci →
            accesses_in_range ci (lks ++ lks') res child) as Hacc.
  { intros lks' child Hc.
    destruct (lookup_lt_is_Some_2 ci child Hc) as [index Hi].
    destruct (lookup_lt_is_Some_2 lks child ltac:(lia)) as [plhs Hl].
    exists index, plhs. split_and!; [done|by rewrite lookup_app_l by lia|].
    intros p m Hp Hm. pose proof (Hcov _ _ _ Hi Hl) as Hc'.
    split; [destruct Hc'; lia|by eapply covers_value]. }
  unfold Machine.sum_input_likelihoods.
  destruct (machine_children_ok mul ci lks res (length ci) Hwf) as [out Hout].
  { intros child Hc. specialize (Hacc [] child Hc). by rewrite app_nil_r in Hacc. }
  destruct (machine_children_Done _ _ _ _ _ _ Hwf Hout) as (Hwf' & Hs0 & Hs1).
  exists out. split_and!; try done.
  - intros lks'. rewrite <- Hout. unfold for_range.
    apply for_each_ext_in. intros child b Hc%elem_of_seq.
    rewrite !machine_child_step_eq. by rewrite lookup_app_l by lia.
  - intros p Hshort.
    assert (∀ m, cell out p m = cell res p m) as Hcell.
    { intros m. eapply machine_children_frame; [done|exact Hout|].
      intros c index _ Hi. apply Hshort. by eapply list_elem_of_lookup_2. }
    unfold cell, shape0 in *.
    destruct (rows out !! p) as [r|] eqn:Hr, (rows res !! p) as [r'|] eqn:Hr'.
    + f_equal. apply list_eq. intros m. apply Hcell.
    + apply lookup_lt_Some in Hr. apply lookup_ge_None in Hr'. lia.
    + apply lookup_lt_Some in Hr'. apply lookup_ge_None in Hr. lia.
    + done.
Qed.

Lemma sum_input_likelihoods_no_shape_check_witness :
  wf narrow_buffer ∧ length [[0%Z]] ≤ length [plhs_A; plhs_B] ∧
  (∀ child index plhs, [[0%Z]] !! child = Some index →
     [plhs_A; plhs_B] !! child = Some plhs → covers narrow_buffer index plhs) ∧
  ∃ out, Machine.sum_input_likelihoods mul_overflow [[0%Z]] narrow_buffer
           [plhs_A; plhs_B] = Done out ∧
    shape0 out = shape0 narrow_buffer ∧ shape1 out = shape1 narrow_buffer ∧
    (∀ lks', Machine.sum_input_likelihoods mul_overflow [[0%Z]] narrow_buffer
               ([plhs_A; plhs_B] ++ lks') = Done out) ∧
    ∀ p, (∀ index, index ∈ [[0%Z]] → length index ≤ p) →
         rows out !! p = rows narrow_buffer !! p.
Proof.
  assert (wf narrow_buffer) as Hwf by (repeat constructor).
  assert (∀ child index plhs, [[0%Z]] !! child = Some index →
            [plhs_A; plhs_B] !! child = Some plhs → covers narrow_buffer index plhs)
    as Hcov.
  { intros [|child] index plhs Hi Hl; [|done].
    injection Hi as <-. injection Hl as <-.
    split_and!; [cbv; lia|repeat constructor|cbv; lia|].
    repeat constructor; cbv; discriminate. }
  split; [exact Hwf|]. split; [cbv; lia|]. split; [exact Hcov|].
  apply (sum_input_likelihoods_no_shape_check mul_overflow [[0%Z]] narrow_buffer
           [plhs_A; plhs_B] Hwf); [cbv; lia|exact Hcov].
Defined.

(** * Properties in machine arithmetic: the two aggregators *)

(** C3. For a row of root likelihoods and a motif-probability vector of one
    length the call returns their dot product: the products
    [input_likelihoods[m] * mprobs[m]], added up from [0.0] in the order of
    the motifs, in the arithmetic at hand.  The value is made of the entries
    of that one row and of [mprobs], and of nothing else. *)
Theorem get_total_log_likelihood_step1_dot
    (mul add : float64 → float64 → float64) input_likelihoods mprobs :
  length input_likelihoods = length mprobs →
  Machine.get_total_log_likelihood_step1 mul add input_likelihoods mprobs
  = Ok (sum_in_order add (zip_with mul input_likelihoods mprobs)).
Proof. intros Hlen. apply machine_step1. lia. Qed.

Lemma get_total_log_likelihood_step1_dot_witness :
  length [Fin 1; Fin 0] = length [Fin (1 / 2); Fin (1 / 2)] ∧
  Machine.get_total_log_likelihood_step1 mul_overflow add_overflow
    [Fin 1; Fin 0] [Fin (1 / 2); Fin (1 / 2)]
  = Ok (sum_in_order add_overflow
          (zip_with mul_overflow [Fin 1; Fin 0] [Fin (1 / 2); Fin (1 / 2)])).
Proof.
  split; [reflexivity|].
  apply (get_total_log_likelihood_step1_dot mul_overflow add_overflow
           [Fin 1; Fin 0] [Fin (1 / 2); Fin (1 / 2)]).
  reflexivity.
Defined.

(** C2. For as many totals as counts the call returns the sum over the
    patterns of [log(lhs[i]) * counts[i]]: the logarithms are taken by
    [numpy.log], multiplied by the counts and added up from [0.0] in the
    order of the patterns, in the arithmetic at hand. *)
Theorem get_log_sum_across_sites_sum
    (mul add : float64 → float64 → float64) (log : float64 → float64)
    lhs counts :
  length lhs = length counts →
  Machine.get_log_sum_across_sites mul add log lhs counts
  = Ok (sum_in_order add (zip_with mul (log <$> lhs) counts)).
Proof. intros Hlen. apply machine_log_sum. lia. Qed.

Lemma get_log_sum_across_sites_sum_witness :
  length [Fin (1 / 2); Fin 2] = length [Fin 10; Fin 3] ∧
  Machine.get_log_sum_across_sites mul_overflow add_overflow log_overflow
    [Fin (1 / 2); Fin 2] [Fin 10; Fin 3]
  = Ok (sum_in_order add_overflow
          (zip_with mul_overflow (log_overflow <$> [Fin (1 / 2); Fin 2])
             [Fin 10; Fin 3])).
Proof.
  split; [reflexivity|].
  apply (get_log_sum_across_sites_sum mul_overflow add_overflow log_overflow
           [Fin (1 / 2); Fin 2] [Fin 10; Fin 3]).
  reflexivity.
Defined.

(** ** Overflow *)

Lemma ln_16_bounds : (2 < ln 16 < 4)%R.
Proof.
  pose proof exp_le_3 as H3. pose proof (exp_ineq1 1 ltac:(lra)) as H2.
  pose proof (exp_pos 1) as Hpos.
  assert (exp 2 < 16)%R as Hlo.
  { replace 2%R with (1 + 1)%R by lra. rewrite exp_plus. nra. }
  assert (16 < exp 4)%R as Hhi.
  { replace 4%R with ((1 + 1) + (1 + 1))%R by lra. rewrite !exp_plus.
    assert (4 < exp 1 * exp 1)%R as Hsq by nra. nra. }
  split.
  - rewrite <- (ln_exp 2). apply ln_increasing; [apply exp_pos|done].
  - rewrite <- (ln_exp 4). apply ln_increasing; [lra|done].
Qed.

Lemma pow_2_1024 : (2 ^ 1024 = 2 * 2 ^ 1023)%R.
Proof. reflexivity. Qed.

Lemma pow_2_1023_large : (4 <= 2 ^ 1023)%R.
Proof.
  replace 4%R with (2 ^ 2)%R by (simpl; lra).
  apply Rle_pow; [lra|lia].
Qed.

Lemma overflow_up x : (2 ^ 1024 <= x)%R → overflow (Fin x) = PInf.
Proof. intros Hx. unfold overflow. by destruct (Rle_dec (2 ^ 1024) x). Qed.

Lemma overflow_exact x :
  (- 2 ^ 1024 < x < 2 ^ 1024)%R → overflow (Fin x) = Fin x.
Proof.
  intros Hx. unfold overflow.
  destruct (Rle_dec (2 ^ 1024) x); [lra|].
  destruct (Rle_dec x (- 2 ^ 1024)); [lra|done].
Qed.

Lemma log_overflow_16 : log_overflow (Fin 16) = Fin (ln 16).
Proof.
  unfold log_overflow. rewrite flog_pos by lra. apply overflow_exact.
  pose proof ln_16_bounds. pose proof pow_2_1023_large. rewrite pow_2_1024. lra.
Qed.

Lemma mul_overflow_log_16_huge :
  mul_overflow (Fin (ln 16)) (Fin (2 ^ 1023)) = PInf.
Proof.
  unfold mul_overflow. cbn [fmul]. apply overflow_up.
  pose proof ln_16_bounds. pose proof pow_2_1023_large. rewrite pow_2_1024. nra.
Qed.

(** ** A total of zero *)

(** C4, as stated, fails.  The first total is zero with count one, the
    second total is positive and its count is finite; but the term of the
    second pattern, [log(16) * 2^1023], overflows to [+inf], and [-inf] plus
    [+inf] is [nan].  binary64 overflows at this input as the arithmetic
    used here does. *)
Lemma zero_total_not_minus_infinity :
  [Fin 0; Fin 16] !! 0 = Some (Fin 0) ∧
  [Fin 1; Fin (2 ^ 1023)] !! 0 = Some (Fin 1) ∧ (0 < 1)%R ∧
  (∀ i x, i ≠ 0 → [Fin 0; Fin 16] !! i = Some (Fin x) → (0 < x)%R) ∧
  Machine.get_log_sum_across_sites mul_overflow add_overflow log_overflow
    [Fin 0; Fin 16] [Fin 1; Fin (2 ^ 1023)] = Ok NaN ∧
  Machine.get_log_sum_across_sites mul_overflow add_overflow log_overflow
    [Fin 0; Fin 16] [Fin 1; Fin (2 ^ 1023)] ≠ Ok NInf.
Proof.
  assert (Machine.get_log_sum_across_sites mul_overflow add_overflow log_overflow
            [Fin 0; Fin 16] [Fin 1; Fin (2 ^ 1023)] = Ok NaN) as Hrun.
  { rewrite machine_log_sum by done. unfold sum_in_order.
    cbn [fmap list_fmap zip_with foldl].
    rewrite (sv_log_zero _ _ _ overflow_special_values).
    rewrite (sv_mul_ninf _ _ _ overflow_special_values) by lra.
    rewrite (sv_add_ninf_r _ _ _ overflow_special_values) by done.
    by rewrite log_overflow_16, mul_overflow_log_16_huge. }
  split; [reflexivity|]. split; [reflexivity|]. split; [lra|]. split.
  - intros [|[|i]] x Hi Hx; [done| |done]. injection Hx as <-. lra.
  - split; [exact Hrun|]. rewrite Hrun. discriminate.
Qed.

Section SpecialValues.
Variable mul add : float64 → float64 → float64.
Variable log : float64 → float64.
Hypothesis Hsv : special_values mul add log.

Lemma sum_stays_ninf_or_nan acc ts :
  acc = NInf ∨ acc = NaN →
  (foldl add acc ts = NInf ∨ foldl add acc ts = NaN) ∧
  (acc = NInf → Forall (λ t, t ≠ PInf ∧ t ≠ NaN) ts → foldl add acc ts = NInf).
Proof.
  revert acc. induction ts as [|t ts IH]; intros acc Hacc; cbn [foldl].
  - split; [done|by intros ->].
  - assert (add acc t = NInf ∨ add acc t = NaN) as Hnext.
    { destruct Hacc as [-> | ->]; [|right; apply (sv_add_nan_l _ _ _ Hsv)].
      destruct t as [x| | |].
      - left. by apply (sv_add_ninf_l _ _ _ Hsv).
      - right. apply (sv_add_ninf_pinf _ _ _ Hsv).
      - left. by apply (sv_add_ninf_l _ _ _ Hsv).
      - right. apply (sv_add_nan_r _ _ _ Hsv). }
    destruct (IH _ Hnext) as [Hany Hgood]. split; [done|].
    intros -> Hts. inversion Hts as [|? ? [Ht1 Ht2] Hts']; subst.
    apply Hgood; [|done]. by apply (sv_add_ninf_l _ _ _ Hsv).
Qed.

Lemma sum_with_ninf_term ts p :
  ts !! p = Some NInf →
  (sum_in_order add ts = NInf ∨ sum_in_order add ts = NaN) ∧
  (sum_in_order add (take p ts) ≠ PInf → sum_in_order add (take p ts) ≠ NaN →
   Forall (λ t, t ≠ PInf ∧ t ≠ NaN) (drop (S p) ts) →
   sum_in_order add ts = NInf).
Proof.
  intros Hp. unfold sum_in_order.
  set (a := foldl add (Fin 0) (take p ts)).
  assert (foldl add (Fin 0) ts = foldl add (add a NInf) (drop (S p) ts)) as ->.
  { rewrite <- (take_drop_middle ts p NInf Hp) at 1. by rewrite foldl_app. }
  assert (add a NInf = NInf ∨ add a NInf = NaN) as Hnext.
  { destruct a as [x| | |].
    - left. by apply (sv_add_ninf_r _ _ _ Hsv).
    - right. apply (sv_add_pinf_ninf _ _ _ Hsv).
    - left. by apply (sv_add_ninf_r _ _ _ Hsv).
    - right. apply (sv_add_nan_l _ _ _ Hsv). }
  destruct (sum_stays_ninf_or_nan _ (drop (S p) ts) Hnext) as [Hany Hgood].
  split; [done|]. intros Ha1 Ha2 Hts. apply Hgood; [|done].
  by apply (sv_add_ninf_r _ _ _ Hsv).
Qed.

End SpecialValues.

(** C4, amended.  A total of zero with a positive count is not an error:
    the call completes and the term of that pattern is [-inf].  The returned
    value is [-inf] or [nan]; it is [-inf] whenever the sum of the terms
    before that pattern is neither [+inf] nor [nan] and no later term is
    [+inf] or [nan]. *)
Theorem get_log_sum_across_sites_zero_total
    (mul add : float64 → float64 → float64) (log : float64 → float64)
    lhs counts p c :
  special_values mul add log → length lhs = length counts →
  lhs !! p = Some (Fin 0) → counts !! p = Some (Fin c) → (0 < c)%R →
  Machine.product_at mul (log <$> lhs) counts p = Ok NInf ∧
  ∃ r, Machine.get_log_sum_across_sites mul add log lhs counts = Ok r ∧
    (r = NInf ∨ r = NaN) ∧
    (sum_in_order add (take p (zip_with mul (log <$> lhs) counts)) ≠ PInf →
     sum_in_order add (take p (zip_with mul (log <$> lhs) counts)) ≠ NaN →
     Forall (λ t, t ≠ PInf ∧ t ≠ NaN)
       (drop (S p) (zip_with mul (log <$> lhs) counts)) →
     r = NInf).
Proof.
  intros Hsv Hlen Hx Hc Hpos.
  assert (mul (log (Fin 0)) (Fin c) = NInf) as Hterm.
  { rewrite (sv_log_zero _ _ _ Hsv). by apply (sv_mul_ninf _ _ _ Hsv). }
  split.
  - unfold Machine.product_at.
    rewrite !getitem_nat, list_lookup_fmap, Hx, Hc. simpl. by rewrite Hterm.
  - eexists. split; [apply machine_log_sum; lia|].
    apply (sum_with_ninf_term mul add log Hsv).
    rewrite lookup_zip_with, list_lookup_fmap, Hx, Hc. simpl. by rewrite Hterm.
Qed.

Lemma get_log_sum_across_sites_zero_total_witness :
  special_values mul_overflow add_overflow log_overflow ∧
  length [Fin 0; Fin 1] = length [Fin 10; Fin 3] ∧ (0 < 10)%R ∧
  Machine.product_at mul_overflow (log_overflow <$> [Fin 0; Fin 1])
    [Fin 10; Fin 3] 0 = Ok NInf ∧
  ∃ r, Machine.get_log_sum_across_sites mul_overflow add_overflow log_overflow
         [Fin 0; Fin 1] [Fin 10; Fin 3] = Ok r ∧
    (r = NInf ∨ r = NaN) ∧
    (sum_in_order add_overflow
       (take 0 (zip_with mul_overflow (log_overflow <$> [Fin 0; Fin 1])
                  [Fin 10; Fin 3])) ≠ PInf →
     sum_in_order add_overflow
       (take 0 (zip_with mul_overflow (log_overflow <$> [Fin 0; Fin 1])
                  [Fin 10; Fin 3])) ≠ NaN →
     Forall (λ t, t ≠ PInf ∧ t ≠ NaN)
       (drop 1 (zip_with mul_overflow (log_overflow <$> [Fin 0; Fin 1])
                  [Fin 10; Fin 3])) →
     r = NInf).
Proof.
  split; [exact overflow_special_values|]. split; [reflexivity|]. split; [lra|].
  apply (get_log_sum_across_sites_zero_total mul_overflow add_overflow log_overflow
           [Fin 0; Fin 1] [Fin 10; Fin 3] 0 10%R overflow_special_values);
    [reflexivity|reflexivity|reflexivity|lra].
Defined.

(** ** Scaling a count *)

(** C8, as stated, fails.  One pattern of total [16] with count [2^1023]:
    its term overflows, so the sum is [+inf]; with the count halved the term
    and the sum are finite.  The sum has not changed by
    [(1/2 - 1) * 2^1023 * log 16], which is finite. *)
Lemma scaled_count_not_linear :
  Machine.get_log_sum_across_sites mul_overflow add_overflow log_overflow
    [Fin 16] [Fin (2 ^ 1023)] = Ok PInf ∧
  Machine.get_log_sum_across_sites mul_overflow add_overflow log_overflow
    [Fin 16] (<[0 := Fin (1 / 2 * 2 ^ 1023)]> [Fin (2 ^ 1023)])
  = Ok (Fin (ln 16 * (1 / 2 * 2 ^ 1023))) ∧
  add_overflow PInf (Fin ((1 / 2 - 1) * 2 ^ 1023 * ln 16))
  ≠ Fin (ln 16 * (1 / 2 * 2 ^ 1023)).
Proof.
  pose proof ln_16_bounds as Hln. pose proof pow_2_1023_large as Hbig.
  split_and!.
  - rewrite machine_log_sum by done. unfold sum_in_order.
    cbn [fmap list_fmap zip_with foldl].
    by rewrite log_overflow_16, mul_overflow_log_16_huge.
  - rewrite machine_log_sum by done. unfold sum_in_order.
    cbn [fmap list_fmap zip_with foldl insert list_insert].
    rewrite log_overflow_16. unfold mul_overflow, add_overflow. cbn [fmul].
    rewrite overflow_exact by (rewrite pow_2_1024; nra). cbn [fadd].
    rewrite overflow_exact by (rewrite pow_2_1024; nra). f_equal. f_equal. lra.
  - discriminate.
Qed.

Lemma machine_terms_insert (mul : float64 → float64 → float64)
    (log : float64 → float64) lhs counts p l c' :
  lhs !! p = Some l →
  zip_with mul (log <$> lhs) (<[p := c']> counts)
  = <[p := mul (log l) c']> (zip_with mul (log <$> lhs) counts).
Proof.
  intros Hl. rewrite insert_zip_with. f_equal.
  symmetry. apply list_insert_id. by rewrite list_lookup_fmap, Hl.
Qed.

Lemma log_sum_insert xs cs p x c c' :
  xs !! p = Some x → cs !! p = Some c →
  log_sum xs (<[p := c']> cs) = (log_sum xs cs + ln x * (c' - c))%R.
Proof.
  revert cs p. induction xs as [|y xs IH]; intros [|d cs] [|p] Hx Hc; try done.
  - injection Hx as ->. injection Hc as ->. simpl. lra.
  - change (<[S p := c']> (d :: cs)) with (d :: <[p := c']> cs).
    cbn [log_sum]. rewrite (IH cs p Hx Hc). lra.
Qed.

(** C8, amended.  For totals that are all positive, replacing [counts[p]]
    by [f * counts[p]] replaces the term of that pattern,
    [log(lhs[p]) * counts[p]], by [log(lhs[p]) * (f * counts[p])] and leaves
    every other term and the order of the summation as they were; this holds
    in every arithmetic.  Over exact real arithmetic the returned sum
    thereby changes by exactly [(f - 1) * counts[p] * ln(lhs[p])]. *)
Theorem get_log_sum_across_sites_scale_count
    (mul add : float64 → float64 → float64) (log : float64 → float64)
    (xs cs : list R) p x c (f : R) :
  length xs = length cs → Forall (λ x, (0 < x)%R) xs →
  xs !! p = Some x → cs !! p = Some c →
  Machine.get_log_sum_across_sites mul add log (Fin <$> xs) (Fin <$> cs)
  = Ok (sum_in_order add (zip_with mul (log <$> (Fin <$> xs)) (Fin <$> cs))) ∧
  zip_with mul (log <$> (Fin <$> xs)) (Fin <$> cs) !! p
  = Some (mul (log (Fin x)) (Fin c)) ∧
  Machine.get_log_sum_across_sites mul add log (Fin <$> xs)
    (<[p := Fin (f * c)]> (Fin <$> cs))
  = Ok (sum_in_order add
          (<[p := mul (log (Fin x)) (Fin (f * c))]>
             (zip_with mul (log <$> (Fin <$> xs)) (Fin <$> cs)))) ∧
  get_log_sum_across_sites (Fin <$> xs) (Fin <$> cs) = Ok (Fin (log_sum xs cs)) ∧
  get_log_sum_across_sites (Fin <$> xs) (<[p := Fin (f * c)]> (Fin <$> cs))
  = Ok (Fin (log_sum xs cs + (f - 1) * c * ln x)).
Proof.
  intros Hlen Hpos Hx Hc. split_and!.
  - apply machine_log_sum. rewrite !length_fmap. lia.
  - by rewrite lookup_zip_with, !list_lookup_fmap, Hx, Hc.
  - rewrite machine_log_sum by (rewrite length_insert, !length_fmap; lia).
    f_equal. f_equal. apply machine_terms_insert. by rewrite list_lookup_fmap, Hx.
  - rewrite log_sum_terms by (rewrite !length_fmap; lia).
    by rewrite log_terms_reals, fsum_log_terms.
  - rewrite <- list_fmap_insert.
    rewrite log_sum_terms by (rewrite !length_fmap, length_insert; lia).
    rewrite log_terms_reals, fsum_log_terms by (by rewrite ?length_insert).
    f_equal. f_equal. rewrite (log_sum_insert _ _ _ _ _ _ Hx Hc). lra.
Qed.

Lemma get_log_sum_across_sites_scale_count_witness :
  length [(1 / 2)%R; 2%R] = length [10%R; 3%R] ∧
  Forall (λ x, (0 < x)%R) [(1 / 2)%R; 2%R] ∧
  Machine.get_log_sum_across_sites mul_overflow add_overflow log_overflow
    (Fin <$> [(1 / 2)%R; 2%R]) (Fin <$> [10%R; 3%R])
  = Ok (sum_in_order add_overflow
          (zip_with mul_overflow (log_overflow <$> (Fin <$> [(1 / 2)%R; 2%R]))
             (Fin <$> [10%R; 3%R]))) ∧
  zip_with mul_overflow (log_overflow <$> (Fin <$> [(1 / 2)%R; 2%R]))
    (Fin <$> [10%R; 3%R]) !! 0
  = Some (mul_overflow (log_overflow (Fin (1 / 2))) (Fin 10)) ∧
  Machine.get_log_sum_across_sites mul_overflow add_overflow log_overflow
    (Fin <$> [(1 / 2)%R; 2%R]) (<[0 := Fin (4 * 10)]> (Fin <$> [10%R; 3%R]))
  = Ok (sum_in_order add_overflow
          (<[0 := mul_overflow (log_overflow (Fin (1 / 2))) (Fin (4 * 10))]>
             (zip_with mul_overflow (log_overflow <$> (Fin <$> [(1 / 2)%R; 2%R]))
                (Fin <$> [10%R; 3%R])))) ∧
  get_log_sum_across_sites (Fin <$> [(1 / 2)%R; 2%R]) (Fin <$> [10%R; 3%R])
  = Ok (Fin (log_sum [(1 / 2)%R; 2%R] [10%R; 3%R])) ∧
  get_log_sum_across_sites (Fin <$> [(1 / 2)%R; 2%R])
    (<[0 := Fin (4 * 10)]> (Fin <$> [10%R; 3%R]))
  = Ok (Fin (log_sum [(1 / 2)%R; 2%R] [10%R; 3%R] + (4 - 1) * 10 * ln (1 / 2))).
Proof.
  assert (Forall (λ x, (0 < x)%R) [(1 / 2)%R; 2%R]) as Hpos.
  { repeat constructor; lra. }
  split; [reflexivity|]. split; [exact Hpos|].
  apply (get_log_sum_across_sites_scale_count mul_overflow add_overflow log_overflow
           [(1 / 2)%R; 2%R] [10%R; 3%R] 0 (1 / 2)%R 10%R 4%R);
    [reflexivity|exact Hpos|reflexivity|reflexivity].
Defined.

(** * Further properties in machine arithmetic *)

(** X3. With identity maps the combiner is the entry-by-entry product of
    the children's matrices, multiplied in the order of the children. *)
Theorem sum_input_likelihoods_identity_maps
    (mul : float64 → float64 → float64) res lks :
  lks ≠ [] → wf res →
  Forall (λ M, wf M ∧ shape0 M = shape0 res ∧ shape1 M = shape1 res) lks →
  ∃ out,
    Machine.sum_input_likelihoods mul
      (replicate (length lks) (identity_map (shape0 res))) res lks = Done out ∧
    ∀ p m, p < shape0 res → m < shape1 res →
      ∃ v vs,
        Forall2 (λ M x, getitem2 M (Z.of_nat p) (Z.of_nat m) = Ok x) lks (v :: vs) ∧
        getitem2 out (Z.of_nat p) (Z.of_nat m) = Ok (product_in_order mul v vs).
Proof.
  intros Hne Hwf Hall.
  set (ci := replicate (length lks) (identity_map (shape0 res))).
  assert (consistent ci res lks) as Hcons.
  { split; [done|]. apply Forall2_same_length_lookup_2.
    - unfold ci. by rewrite length_replicate.
    - intros i index M [-> _]%lookup_replicate HM.
      destruct (proj1 (Forall_lookup _ _) Hall i M HM) as (? & ? & ?).
      by apply valid_child_identity. }
  destruct (machine_combiner_product mul ci res lks)
    as (out & Hout & _ & _ & _ & Hcells).
  { unfold ci. destruct lks; [done|discriminate]. }
  { done. }
  exists out. split; [done|]. intros p m Hp Hm.
  destruct (Hcells p m Hp Hm) as (v & vs & Hvals & Hget).
  exists v, vs. split; [|done].
  apply Forall2_same_length_lookup_2.
  - apply Forall2_length in Hvals. rewrite length_zip_with in Hvals.
    unfold ci in Hvals. rewrite length_replicate in Hvals. lia.
  - intros i M x HM Hx.
    assert (ci !! i = Some (identity_map (shape0 res))) as Hi.
    { apply lookup_replicate_2. by eapply lookup_lt_Some. }
    destruct (child_values_lookup _ _ _ _ _ _ _ _ Hvals Hi HM) as (x' & Hx' & Hcv).
    rewrite child_value_identity in Hcv by done. congruence.
Qed.

Lemma sum_input_likelihoods_identity_maps_witness :
  [plhs_B; plhs_B] ≠ [] ∧ wf stale_buffer ∧
  Forall (λ M, wf M ∧ shape0 M = shape0 stale_buffer ∧ shape1 M = shape1 stale_buffer)
    [plhs_B; plhs_B] ∧
  ∃ out,
    Machine.sum_input_likelihoods mul_overflow (replicate 2 (identity_map 2))
      stale_buffer [plhs_B; plhs_B] = Done out ∧
    ∀ p m, p < 2 → m < 2 →
      ∃ v vs,
        Forall2 (λ M x, getitem2 M (Z.of_nat p) (Z.of_nat m) = Ok x)
          [plhs_B; plhs_B] (v :: vs) ∧
        getitem2 out (Z.of_nat p) (Z.of_nat m)
        = Ok (product_in_order mul_overflow v vs).
Proof.
  assert (wf stale_buffer) as Hwf by (repeat constructor).
  assert (Forall (λ M, wf M ∧ shape0 M = shape0 stale_buffer ∧
                       shape1 M = shape1 stale_buffer) [plhs_B; plhs_B]) as Hall.
  { repeat constructor. }
  split; [discriminate|]. split; [exact Hwf|]. split; [exact Hall|].
  apply (sum_input_likelihoods_identity_maps mul_overflow stale_buffer
           [plhs_B; plhs_B]); [discriminate|exact Hwf|exact Hall].
Defined.

(** The exact operations keep the arithmetic of probabilities. *)
Lemma exact_probability_laws : probability_laws fmul fadd.
Proof.
  split.
  - intros b [y ->]. simpl. f_equal. lra.
  - intros a [x ->]. simpl. f_equal. lra.
  - intros a b (x & -> & Hx) (y & -> & Hy). exists (x * y)%R. split; [done|nra].
  - simpl. f_equal. lra.
Qed.

Lemma overflow_small x : (0 <= x <= 1)%R → overflow (Fin x) = Fin x.
Proof.
  intros Hx. apply overflow_exact.
  pose proof pow_2_1023_large. rewrite pow_2_1024. lra.
Qed.

(** So do the overflowing ones. *)
Lemma overflow_probability_laws : probability_laws mul_overflow add_overflow.
Proof.
  unfold mul_overflow, add_overflow. split.
  - intros b [y ->]. cbn [fmul]. rewrite overflow_small by lra. f_equal. lra.
  - intros a [x ->]. cbn [fmul]. rewrite overflow_small by lra. f_equal. lra.
  - intros a b (x & -> & Hx) (y & -> & Hy). cbn [fmul].
    rewrite overflow_small by nra. exists (x * y)%R. split; [done|nra].
  - cbn [fadd]. rewrite overflow_small by lra. f_equal. lra.
Qed.

Section Probabilities.
Variable mul add : float64 → float64 → float64.
Hypothesis Hpl : probability_laws mul add.

Lemma is_probability_finite v : is_probability v → is_finite v.
Proof. intros (x & -> & _). by eexists. Qed.

Lemma product_of_probabilities v vs :
  is_probability v → Forall is_probability vs →
  is_probability (product_in_order mul v vs).
Proof.
  unfold product_in_order. intros Hv Hvs. revert v Hv.
  induction Hvs as [|x vs Hx _ IH]; intros v Hv; cbn [foldl]; [done|].
  apply IH. by apply (pl_mul_probability _ _ Hpl).
Qed.

Lemma product_from_zero vs :
  Forall is_probability vs → product_in_order mul (Fin 0) vs = Fin 0.
Proof.
  unfold product_in_order. induction 1 as [|x vs Hx _ IH]; cbn [foldl]; [done|].
  rewrite (pl_mul_zero_l _ _ Hpl); [done|by apply is_probability_finite].
Qed.

(** A product of probabilities with a zero among them is zero. *)
Lemma product_with_zero v vs :
  is_probability v → Forall is_probability vs → Fin 0 ∈ v :: vs →
  product_in_order mul v vs = Fin 0.
Proof.
  intros Hv Hvs. revert v Hv.
  induction Hvs as [|x vs Hx Hvs IH]; intros v Hv Hin.
  - apply list_elem_of_singleton in Hin as <-. done.
  - apply elem_of_cons in Hin as [<-|Hin].
    + apply product_from_zero. by constructor.
    + change (product_in_order mul v (x :: vs))
        with (product_in_order mul (mul v x) vs).
      apply elem_of_cons in Hin as [<-|Hin].
      * rewrite (pl_mul_zero_r _ _ Hpl) by (by apply is_probability_finite).
        by apply product_from_zero.
      * apply IH; [by apply (pl_mul_probability _ _ Hpl)|].
        by apply list_elem_of_further.
Qed.

Lemma sum_of_zeros n : sum_in_order add (replicate n (Fin 0)) = Fin 0.
Proof.
  unfold sum_in_order. induction n as [|n IH]; cbn [replicate foldl]; [done|].
  by rewrite (pl_add_zero _ _ Hpl).
Qed.

End Probabilities.

(** X6. A zero propagates unchanged: when every entry of every child matrix
    is a probability and some child contributes zero to a cell, the returned
    buffer holds zero there, in every arithmetic that keeps the arithmetic
    of probabilities. *)
Theorem sum_input_likelihoods_zero_propagates
    (mul add : float64 → float64 → float64) ci res lks c index plhs p m :
  probability_laws mul add →
  consistent ci res lks → Forall (all_cells is_probability) lks →
  ci !! c = Some index → lks !! c = Some plhs →
  p < shape0 res → m < shape1 res →
  child_value index plhs p m = Ok (Fin 0) →
  ∃ out, Machine.sum_input_likelihoods mul ci res lks = Done out ∧
         getitem2 out (Z.of_nat p) (Z.of_nat m) = Ok (Fin 0).
Proof.
  intros Hpl Hcons Hprob Hi Hl Hp Hm Hzero.
  destruct (machine_combiner_product mul ci res lks)
    as (out & Hout & _ & _ & _ & Hcells); [by intros ->|done|].
  exists out. split; [done|].
  destruct (Hcells p m Hp Hm) as (v & vs & Hvals & Hget).
  rewrite Hget. f_equal.
  pose proof (child_values_all_cells _ _ _ _ _ _ Hprob Hvals) as Hall.
  inversion Hall as [|? ? Hv Hvs]; subst.
  apply (product_with_zero mul add Hpl); [done|done|].
  destruct (child_values_lookup _ _ _ _ _ _ _ _ Hvals Hi Hl) as (x & Hx & Hcv).
  apply list_elem_of_lookup. exists c. congruence.
Qed.

Lemma sum_input_likelihoods_zero_propagates_witness :
  probability_laws mul_overflow add_overflow ∧
  consistent [[0; 0]; [1; 0]]%Z stale_buffer [plhs_A; plhs_B] ∧
  Forall (all_cells is_probability) [plhs_A; plhs_B] ∧
  child_value [0; 0]%Z plhs_A 1 1 = Ok (Fin 0) ∧
  ∃ out, Machine.sum_input_likelihoods mul_overflow [[0; 0]; [1; 0]]%Z stale_buffer
           [plhs_A; plhs_B] = Done out ∧
         getitem2 out (Z.of_nat 1) (Z.of_nat 1) = Ok (Fin 0).
Proof.
  assert (consistent [[0; 0]; [1; 0]]%Z stale_buffer [plhs_A; plhs_B]) as Hcons.
  { apply example_consistent; [repeat constructor|reflexivity..]. }
  assert (Forall (all_cells is_probability) [plhs_A; plhs_B]) as Hprob.
  { repeat constructor; eexists; (split; [reflexivity|lra]). }
  split; [exact overflow_probability_laws|]. split; [exact Hcons|].
  split; [exact Hprob|]. split; [reflexivity|].
  apply (sum_input_likelihoods_zero_propagates mul_overflow add_overflow
           [[0; 0]; [1; 0]]%Z stale_buffer [plhs_A; plhs_B] 0 [0; 0]%Z plhs_A 1 1
           overflow_probability_laws);
    [exact Hcons|exact Hprob|reflexivity|reflexivity|cbv; lia|cbv; lia|reflexivity].
Defined.

(** X13. With more totals than counts the log aggregator never reads the
    surplus: the call returns what it returns on the first [len(counts)]
    totals. *)
Theorem get_log_sum_across_sites_ignores_tail
    (mul add : float64 → float64 → float64) (log : float64 → float64)
    lhs counts :
  length counts ≤ length lhs →
  Machine.get_log_sum_across_sites mul add log lhs counts
  = Machine.get_log_sum_across_sites mul add log (take (length counts) lhs) counts.
Proof.
  intros Hlen. rewrite (machine_log_sum _ _ _ lhs) by done.
  rewrite (machine_log_sum _ _ _ (take _ _)) by (rewrite length_take; lia).
  by rewrite fmap_take, zip_with_take_l.
Qed.

Lemma get_log_sum_across_sites_ignores_tail_witness :
  length [Fin 3] ≤ length [Fin 1; Fin 2] ∧
  Machine.get_log_sum_across_sites mul_overflow add_overflow log_overflow
    [Fin 1; Fin 2] [Fin 3]
  = Machine.get_log_sum_across_sites mul_overflow add_overflow log_overflow
      (take 1 [Fin 1; Fin 2]) [Fin 3].
Proof.
  split; [cbv; lia|].
  apply (get_log_sum_across_sites_ignores_tail mul_overflow add_overflow
           log_overflow [Fin 1; Fin 2] [Fin 3]). cbv; lia.
Defined.

(** X20. Data that the children cannot explain give [-inf]: when the child
    matrices hold probabilities and for every motif some child contributes
    zero to a pattern, the row the combiner returns for that pattern has
    total zero under any finite motif probabilities, and the log aggregator
    gives that total with a positive count the value [-inf]; this in every
    arithmetic that keeps the arithmetic of probabilities and follows the
    IEEE rules for the special values. *)
Theorem incompatible_children_log_likelihood
    (mul add : float64 → float64 → float64) (log : float64 → float64)
    ci res lks p (ms : list R) c :
  probability_laws mul add → special_values mul add log →
  ci ≠ [] → consistent ci res lks → Forall (all_cells is_probability) lks →
  p < shape0 res →
  (∀ m, m < shape1 res → ∃ k index plhs,
      ci !! k = Some index ∧ lks !! k = Some plhs ∧
      child_value index plhs p m = Ok (Fin 0)) →
  length ms = shape1 res → (0 < c)%R →
  ∃ out row,
    Machine.sum_input_likelihoods mul ci res lks = Done out ∧
    rows out !! p = Some row ∧
    Machine.get_total_log_likelihood_step1 mul add row (Fin <$> ms) = Ok (Fin 0) ∧
    Machine.get_log_sum_across_sites mul add log [Fin 0] [Fin c] = Ok NInf.
Proof.
  intros Hpl Hsv Hne Hcons Hprob Hp Hzero Hms Hc.
  destruct (machine_combiner_product mul _ _ _ Hne Hcons)
    as (out & Hout & Hwf & Hs0 & Hs1 & Hcells).
  destruct (lookup_lt_is_Some_2 (rows out) p) as [row Hrow];
    [unfold shape0 in *; lia|].
  assert (length row = shape1 res) as Hlen.
  { rewrite <- Hs1. by apply (proj1 (Forall_lookup _ _) Hwf p row). }
  assert (row = replicate (shape1 res) (Fin 0)) as ->.
  { apply list_eq. intros m.
    destruct (decide (m < shape1 res)) as [Hm|Hm].
    - rewrite lookup_replicate_2 by done.
      destruct (Hcells p m Hp Hm) as (v & vs & Hvals & Hget).
      apply getitem2_Ok_cell in Hget. unfold cell in Hget. rewrite Hrow in Hget.
      rewrite Hget. f_equal.
      pose proof (child_values_all_cells _ _ _ _ _ _ Hprob Hvals) as Hall.
      inversion Hall as [|? ? Hv Hvs]; subst.
      apply (product_with_zero mul add Hpl); [done|done|].
      destruct (Hzero m Hm) as (k & index & plhs & Hi & Hl & Hz).
      destruct (child_values_lookup _ _ _ _ _ _ _ _ Hvals Hi Hl) as (x & Hx & Hcv).
      apply list_elem_of_lookup. exists k. congruence.
    - rewrite !lookup_ge_None_2; [done|rewrite length_replicate; lia|lia]. }
  exists out, (replicate (shape1 res) (Fin 0)).
  split_and!; try done.
  - rewrite machine_step1 by (rewrite length_replicate, length_fmap; lia).
    f_equal. rewrite <- Hms.
    assert (zip_with mul (replicate (length ms) (Fin 0)) (Fin <$> ms)
            = replicate (length ms) (Fin 0)) as ->.
    { clear -Hpl. induction ms as [|y ms' IH]; [done|].
      cbn [length replicate fmap list_fmap zip_with].
      change (list_fmap R float64 Fin ms') with (Fin <$> ms').
      rewrite IH. f_equal. apply (pl_mul_zero_l _ _ Hpl). by eexists. }
    apply (sum_of_zeros mul add Hpl).
  - rewrite machine_log_sum by done. unfold sum_in_order.
    cbn [fmap list_fmap zip_with foldl]. f_equal.
    rewrite (sv_log_zero _ _ _ Hsv), (sv_mul_ninf _ _ _ Hsv) by done.
    by apply (sv_add_ninf_r _ _ _ Hsv).
Qed.

Lemma incompatible_children_log_likelihood_witness :
  probability_laws mul_overflow add_overflow ∧
  special_values mul_overflow add_overflow log_overflow ∧
  consistent [[0; 0]; [1; 0]]%Z stale_buffer [plhs_A; plhs_B] ∧
  Forall (all_cells is_probability) [plhs_A; plhs_B] ∧
  (∀ m, m < 2 → ∃ k index plhs,
      [[0; 0]; [1; 0]]%Z !! k = Some index ∧ [plhs_A; plhs_B] !! k = Some plhs ∧
      child_value index plhs 1 m = Ok (Fin 0)) ∧
  ∃ out row,
    Machine.sum_input_likelihoods mul_overflow [[0; 0]; [1; 0]]%Z stale_buffer
      [plhs_A; plhs_B] = Done out ∧
    rows out !! 1 = Some row ∧
    Machine.get_total_log_likelihood_step1 mul_overflow add_overflow row
      (Fin <$> [(1 / 2)%R; (1 / 2)%R]) = Ok (Fin 0) ∧
    Machine.get_log_sum_across_sites mul_overflow add_overflow log_overflow
      [Fin 0] [Fin 10] = Ok NInf.
Proof.
  assert (consistent [[0; 0]; [1; 0]]%Z stale_buffer [plhs_A; plhs_B]) as Hcons.
  { apply example_consistent; [repeat constructor|reflexivity..]. }
  assert (Forall (all_cells is_probability) [plhs_A; plhs_B]) as Hprob.
  { repeat constructor; eexists; (split; [reflexivity|lra]). }
  assert (∀ m, m < 2 → ∃ k index plhs,
            [[0; 0]; [1; 0]]%Z !! k = Some index ∧ [plhs_A; plhs_B] !! k = Some plhs ∧
            child_value index plhs 1 m = Ok (Fin 0)) as Hzero.
  { intros [|[|m]] Hm; [| |lia].
    - exists 1, [1; 0]%Z, plhs_B. split_and!; reflexivity.
    - exists 0, [0; 0]%Z, plhs_A. split_and!; reflexivity. }
  split; [exact overflow_probability_laws|].
  split; [exact overflow_special_values|].
  split; [exact Hcons|]. split; [exact Hprob|]. split; [exact Hzero|].
  apply (incompatible_children_log_likelihood mul_overflow add_overflow log_overflow
           [[0; 0]; [1; 0]]%Z stale_buffer [plhs_A; plhs_B] 1
           [(1 / 2)%R; (1 / 2)%R] 10%R
           overflow_probability_laws overflow_special_values);
    [discriminate|exact Hcons|exact Hprob|cbv; lia|exact Hzero|reflexivity|lra].
Defined.
